(** * Mini-Compiler: the four analysis phases of [app.py]

    A shallow embedding of [tokenize], [syntax_analysis],
    [semantic_analysis] and [build_parse_tree], of [draw_tree] and of the
    handler of the Compile button, and the properties of the front end
    that follow from the code.

    Python strings are modelled by [string]; a character is a code point
    below 256. Exceptions are values of [outcome]; the two module globals
    of the parser ([tokens_list], [index]) are an explicit store threaded
    through the parsing functions. *)

From Stdlib Require Import Ascii String List Arith Bool Lia.
From stdpp Require Import base decidable gmap strings.
Import ListNotations.
Local Open Scope string_scope.
Local Open Scope list_scope.
Local Open Scope nat_scope.

(** ** Characters and the string methods the code calls *)

Module Chars.

Definition code (c : ascii) : nat := nat_of_ascii c.

Definition between (lo hi : nat) (c : ascii) : bool :=
  (lo <=? code c) && (code c <=? hi).

(** [\d] and [[0-9]]: below code point 256 both are the ASCII digits. *)
Definition is_digit (c : ascii) : bool := between 48 57 c.

(** [[a-zA-Z_]] *)
Definition is_alpha_ (c : ascii) : bool :=
  between 97 122 c || between 65 90 c || (code c =? 95).

(** [[a-zA-Z0-9_]] *)
Definition is_word (c : ascii) : bool := is_alpha_ c || is_digit c.

(** [[+\-*/=]] and [[=+*/-]]: the same five characters. *)
Definition is_op (c : ascii) : bool :=
  (code c =? 43) || (code c =? 45) || (code c =? 42) || (code c =? 47)
  || (code c =? 61).

(** [[ \t\n]] *)
Definition is_skip (c : ascii) : bool :=
  (code c =? 32) || (code c =? 9) || (code c =? 10).

(** [str.isspace] on code points below 256: what [strip()] and
    [split()] treat as whitespace. *)
Definition is_space (c : ascii) : bool :=
  between 9 13 c || between 28 32 c || (code c =? 133) || (code c =? 160).

End Chars.
Import Chars.

Module Str.

Fixpoint take_while (p : ascii -> bool) (s : string) : string :=
  match s with
  | String c s' => if p c then String c (take_while p s') else ""
  | EmptyString => ""
  end.

Fixpoint drop_while (p : ascii -> bool) (s : string) : string :=
  match s with
  | String c s' => if p c then drop_while p s' else s
  | EmptyString => ""
  end.

Fixpoint all (p : ascii -> bool) (s : string) : bool :=
  match s with
  | String c s' => p c && all p s'
  | EmptyString => true
  end.

(** [s.startswith(p)] *)
Definition startswith (p s : string) : bool := String.prefix p s.

(** [s.endswith(";")], for a one-character suffix. *)
Fixpoint endswith_char (c : ascii) (s : string) : bool :=
  match s with
  | EmptyString => false
  | String a EmptyString => Ascii.eqb a c
  | String _ s' => endswith_char c s'
  end.

(** ["=" in s], for a one-character needle. *)
Fixpoint contains_char (c : ascii) (s : string) : bool :=
  match s with
  | EmptyString => false
  | String a s' => Ascii.eqb a c || contains_char c s'
  end.

Definition lstrip (s : string) : string := drop_while is_space s.

Fixpoint rstrip (s : string) : string :=
  match s with
  | EmptyString => ""
  | String c s' => if all is_space s then "" else String c (rstrip s')
  end.

(** [s.strip()] *)
Definition strip (s : string) : string := rstrip (lstrip s).

(** [s.split(sep)] for a one-character separator: never empty, the
    empty string splits into one empty field. *)
Fixpoint split_char (sep : ascii) (s : string) : list string :=
  match s with
  | EmptyString => [""]
  | String c s' =>
      if Ascii.eqb c sep then "" :: split_char sep s'
      else match split_char sep s' with
           | h :: t => String c h :: t
           | [] => [String c ""]
           end
  end.

(** [s.split(sep, 1)]: cut at the first separator only. *)
Fixpoint split_first (sep : ascii) (s : string) : list string :=
  match s with
  | EmptyString => [""]
  | String c s' =>
      if Ascii.eqb c sep then [""; s']
      else match split_first sep s' with
           | h :: t => String c h :: t
           | [] => [String c ""]
           end
  end.

(** [s.split()]: the maximal runs of non-whitespace, none empty. *)
Fixpoint split_ws (s : string) : list string :=
  match s with
  | EmptyString => []
  | String c s' =>
      if is_space c then split_ws s'
      else match s' with
           | EmptyString => [String c ""]
           | String c' _ =>
               if is_space c' then String c "" :: split_ws s'
               else match split_ws s' with
                    | h :: t => String c h :: t
                    | [] => [String c ""]
                    end
           end
  end.

(** [s.replace(c, "")] for a one-character [c]. *)
Fixpoint remove_char (c : ascii) (s : string) : string :=
  match s with
  | EmptyString => ""
  | String a s' =>
      if Ascii.eqb a c then remove_char c s' else String a (remove_char c s')
  end.

End Str.

(** ** The regular expressions of the code *)

Module Re.

(** A pattern anchored at the start of the text: the matched prefix,
    if any. *)
Definition pattern := string -> option string.

(** A literal. *)
Definition lit (w : string) : pattern :=
  fun s => if Str.startswith w s then Some w else None.

(** [[class]+] *)
Definition plus (p : ascii -> bool) : pattern :=
  fun s => match s with
           | String c _ => if p c then Some (Str.take_while p s) else None
           | EmptyString => None
           end.

(** [[class]] *)
Definition one (p : ascii -> bool) : pattern :=
  fun s => match s with
           | String c _ => if p c then Some (String c "") else None
           | EmptyString => None
           end.

(** [[a-zA-Z_][a-zA-Z0-9_]*] *)
Definition ident : pattern :=
  fun s => match s with
           | String c s' =>
               if is_alpha_ c then Some (String c (Str.take_while is_word s'))
               else None
           | EmptyString => None
           end.

(** An alternation of named groups: the first alternative that matches
    wins, and its name is the match's [lastgroup]. *)
Fixpoint alt (groups : list (string * pattern)) (s : string)
  : option (string * string) :=
  match groups with
  | [] => None
  | (name, p) :: rest =>
      match p s with
      | Some v => Some (name, v)
      | None => alt rest s
      end
  end.

(** [re.finditer]: scan left to right; where the alternation matches,
    yield the match and resume after it, otherwise move one character
    on. [skip] counts the characters of the last match still to pass. *)
Fixpoint scan (groups : list (string * pattern)) (skip : nat) (s : string)
  : list (string * string) :=
  match s with
  | EmptyString => []
  | String _ s' =>
      match skip with
      | S k => scan groups k s'
      | O =>
          match alt groups s with
          | Some (name, v) => (name, v) :: scan groups (String.length v - 1) s'
          | None => scan groups 0 s'
          end
      end
  end.

Definition finditer (groups : list (string * pattern)) (s : string)
  : list (string * string) := scan groups 0 s.

(** [re.findall] of a pattern without groups: the matched texts. *)
Definition findall (alts : list pattern) (s : string) : list string :=
  map snd (finditer (map (fun p => ("", p)) alts) s).

End Re.

(** ** Lexical analysis *)

Definition token_specification : list (string * Re.pattern) :=
  [ ("KEYWORD", Re.lit "int");
    ("NUMBER", Re.plus is_digit);
    ("ID", Re.ident);
    ("OP", Re.one is_op);
    ("SEMI", Re.lit ";");
    ("SKIP", Re.plus is_skip) ].

(** [value not in symbol_table] on the insertion-ordered dict. *)
Definition dict_has (k : string) (d : list (string * string)) : bool :=
  existsb (fun kv => String.eqb (fst kv) k) d.

(** The body of the [for match in re.finditer(...)] loop. *)
Definition tokenize_step (acc : list (string * string) * list (string * string))
    (m : string * string) : list (string * string) * list (string * string) :=
  let '(tokens, symbol_table) := acc in
  let '(kind, value) := m in
  let tokens := if negb (String.eqb kind "SKIP") then tokens ++ [(kind, value)]
                else tokens in
  let symbol_table :=
    if String.eqb kind "ID" && negb (dict_has value symbol_table)
    then symbol_table ++ [(value, "int")] else symbol_table in
  (tokens, symbol_table).

Definition tokenize (code : string)
  : list (string * string) * list (string * string) :=
  fold_left tokenize_step (Re.finditer token_specification code) ([], []).

(** ** Exceptions *)

Inductive exn : Type :=
| SyntaxError (msg : string)
| IndexError
| ValueError.

Inductive outcome (A : Type) : Type :=
| Returned (v : A)
| Raised (e : exn).
Arguments Returned {A} v.
Arguments Raised {A} e.

(** ** Syntax analysis *)

Definition verdict (line : string) : string :=
  if Str.startswith "int" line && Str.endswith_char ";" line
  then "Valid Declaration"
  else if Str.contains_char "=" line && Str.endswith_char ";" line
  then "Valid Assignment"
  else "Syntax Error".

Definition syntax_analysis (code : string) : list (string * string) :=
  let lines := Str.split_char "010" (Str.strip code) in
  fold_left
    (fun result line =>
       let line := Str.strip line in
       result ++ [(line, verdict line)])
    lines [].

(** ** Semantic analysis *)

Definition multiple_declaration (var : string) : string :=
  "Semantic Error: Multiple declaration of '" +:+ var +:+ "'".

Definition undeclared_variable (var : string) : string :=
  "Semantic Error: Undeclared variable '" +:+ var +:+ "'".

(** The inner [for token in re.findall(...)] loop. *)
Definition check_rhs (declared : gset string) (errors : list string)
    (rhs : string) : list string :=
  fold_left
    (fun errors token =>
       if decide (token ∈ declared) then errors
       else errors ++ [undeclared_variable token])
    (Re.findall [Re.ident] rhs) errors.

(** The [for line in lines] loop, on the lines still to visit. *)
Fixpoint semantic_loop (lines : list string) (declared : gset string)
    (errors : list string) : outcome (list string) :=
  match lines with
  | [] => Returned errors
  | line :: lines =>
      let line := Str.strip line in
      if Str.startswith "int" line then
        match nth_error (Str.split_ws line) 1 with
        | None => Raised IndexError
        | Some word =>
            let var := Str.remove_char ";" word in
            if decide (var ∈ declared)
            then semantic_loop lines declared
                   (errors ++ [multiple_declaration var])
            else semantic_loop lines ({[var]} ∪ declared) errors
        end
      else if Str.contains_char "=" line then
        match Str.split_first "=" line with
        | [lhs; rhs] =>
            let lhs := Str.strip lhs in
            let rhs := Str.remove_char ";" (Str.strip rhs) in
            let errors :=
              if decide (lhs ∈ declared) then errors
              else errors ++ [undeclared_variable lhs] in
            semantic_loop lines declared (check_rhs declared errors rhs)
        | _ => Raised ValueError
        end
      else semantic_loop lines declared errors
  end.

Definition semantic_analysis (code : string) : outcome (list string) :=
  semantic_loop (Str.split_char "010" (Str.strip code)) ∅ [].

(** ** Parse tree *)

#[warnings="-register-all"]
Inductive Node : Type :=
| mkNode (name : string) (children : list Node).

Definition leaf (name : string) : Node := mkNode name [].

(** [add_child] is only ever called with a [Node]; the [str(child)]
    branch is never taken. *)
Definition add_child (node child : Node) : Node :=
  match node with
  | mkNode name children => mkNode name (children ++ [child])
  end.

(** ** Parser *)

(** The module globals written by [build_parse_tree]. *)
Record globals : Type := mkGlobals {
  tokens_list : list string;
  index : nat
}.

(** A computation on the globals that returns or raises; what it wrote
    before raising stays written. *)
Definition M (A : Type) : Type := globals -> outcome A * globals.

Definition ret {A : Type} (v : A) : M A := fun g => (Returned v, g).

Definition raise {A : Type} (e : exn) : M A := fun g => (Raised e, g).

Definition bind {A B : Type} (m : M A) (k : A -> M B) : M B :=
  fun g =>
    match m g with
    | (Returned v, g') => k v g'
    | (Raised e, g') => (Raised e, g')
    end.

Notation "x <- m ;; k" := (bind m (fun x => k))
  (at level 100, m at next level, right associativity).
Notation "m ;; k" := (bind m (fun _ => k))
  (at level 100, right associativity).

(** [tokens_list[index]] *)
Definition current : M string :=
  fun g =>
    match nth_error (tokens_list g) (index g) with
    | Some t => (Returned t, g)
    | None => (Raised IndexError, g)
    end.

(** [index += 1] *)
Definition advance : M unit :=
  fun g => (Returned tt, mkGlobals (tokens_list g) (index g + 1)).

(** [index < len(tokens_list) and tokens_list[index] == expected] *)
Definition at_token (expected : string) (g : globals) : bool :=
  (index g <? length (tokens_list g))
  && match nth_error (tokens_list g) (index g) with
     | Some t => String.eqb t expected
     | None => false
     end.

Definition expected_found (expected found : string) : string :=
  "Expected '" +:+ expected +:+ "', found '" +:+ found +:+ "'".

Definition match_ (expected : string) : M Node :=
  fun g =>
    if at_token expected g then
      (advance ;; ret (leaf expected)) g
    else
      (found <- current ;; raise (SyntaxError (expected_found expected found))) g.

Definition parse_declaration : M Node :=
  let node := mkNode "Declaration" [] in
  c <- match_ "int" ;;
  let node := add_child node c in
  t <- current ;;
  let node := add_child node (leaf t) in
  advance ;;
  c <- match_ ";" ;;
  let node := add_child node c in
  ret node.

Definition parse_assignment : M Node :=
  let node := mkNode "Assignment" [] in
  t <- current ;;
  let node := add_child node (leaf t) in
  advance ;;
  c <- match_ "=" ;;
  let node := add_child node c in
  t <- current ;;
  let node := add_child node (leaf t) in
  advance ;;
  node <- (fun g =>
             if at_token "+" g then
               (c <- match_ "+" ;;
                let node := add_child node c in
                t <- current ;;
                let node := add_child node (leaf t) in
                advance ;;
                ret node) g
             else ret node g) ;;
  c <- match_ ";" ;;
  let node := add_child node c in
  ret node.

(** The [while index < len(tokens_list)] loop of [parse_program]; [fuel]
    bounds the number of iterations and [None] means it ran out. *)
Fixpoint parse_program_loop (fuel : nat) (node : Node) (g : globals)
  : option (outcome Node * globals) :=
  if index g <? length (tokens_list g) then
    match fuel with
    | O => None
    | S fuel =>
        match (if at_token "int" g then parse_declaration
               else parse_assignment) g with
        | (Returned child, g') =>
            parse_program_loop fuel (add_child node child) g'
        | (Raised e, g') => Some (Raised e, g')
        end
    end
  else Some (Returned node, g).

(** [int|[a-zA-Z_][a-zA-Z0-9_]*|[0-9]+|[=+*/-]|;] *)
Definition parser_regex : list Re.pattern :=
  [ Re.lit "int"; Re.ident; Re.plus is_digit; Re.one is_op; Re.lit ";" ].

(** [parse_program]: each statement consumes at least one token, so one
    unit of fuel per remaining token is enough ([parse_program_total]). *)
Definition parse_program (g : globals) : option (outcome Node * globals) :=
  parse_program_loop (length (tokens_list g) - index g) (mkNode "Program" []) g.

(** The two globals are assigned before anything reads them. *)
Definition build_parse_tree (code : string) (g : globals)
  : option (outcome Node * globals) :=
  let g := mkGlobals (Re.findall parser_regex code) 0 in
  parse_program g.

(** ** The four phases as calls on the module state *)

Inductive phase : Type :=
| Tokenize
| SyntaxAnalysis
| SemanticAnalysis
| BuildParseTree.

Inductive output : Type :=
| Tokens (tokens symbol_table : list (string * string))
| Verdicts (result : list (string * string))
| Errors (errors : list string)
| Tree (root : Node).

(** Only [build_parse_tree] touches the globals; [tokenize] and
    [syntax_analysis] have no raising operation. *)
Definition call (p : phase) (code : string) (g : globals)
  : option (outcome output * globals) :=
  match p with
  | Tokenize =>
      let '(tokens, symbol_table) := tokenize code in
      Some (Returned (Tokens tokens symbol_table), g)
  | SyntaxAnalysis => Some (Returned (Verdicts (syntax_analysis code)), g)
  | SemanticAnalysis =>
      match semantic_analysis code with
      | Returned errors => Some (Returned (Errors errors), g)
      | Raised e => Some (Raised e, g)
      end
  | BuildParseTree =>
      match build_parse_tree code g with
      | Some (Returned root, g') => Some (Returned (Tree root), g')
      | Some (Raised e, g') => Some (Raised e, g')
      | None => None
      end
  end.

(** A character that starts no lexical rule. *)
Definition unrecognized (c : ascii) : bool :=
  negb (is_alpha_ c || is_digit c || is_op c || Ascii.eqb c ";" || is_skip c).

Definition g0 : globals := mkGlobals [] 0.

(** The line feed, as a one-character string. *)
Definition LF : string := String "010" "".

(** The rule of the grammar checker in the words of its description:
    a declaration if the line starts with [int] and ends with [;], else
    an assignment if it contains [=] and ends with [;], else an error. *)
Definition spec_verdict (line v : string) : Prop :=
  let declaration :=
    Str.startswith "int" line = true /\ Str.endswith_char ";" line = true in
  let assignment :=
    Str.contains_char "=" line = true /\ Str.endswith_char ";" line = true in
  (declaration -> v = "Valid Declaration")
  /\ (~ declaration -> assignment -> v = "Valid Assignment")
  /\ (~ declaration -> ~ assignment -> v = "Syntax Error").

(** ** Predicates on patterns and parser steps *)

(** [p] cannot see the character [c] nor anything after it. *)
Definition local_at (c : ascii) (p : Re.pattern) : Prop :=
  forall pre post, p (pre +:+ String c post) = p pre.

(** What [p] matches is no longer than the text. *)
Definition bounded (p : Re.pattern) : Prop :=
  forall s v, p s = Some v -> String.length v <= String.length s.

(** [m], when it returns, leaves [tokens_list] alone and has moved the
    cursor on by at least [n]. *)
Definition steps {A : Type} (n : nat) (m : M A) : Prop :=
  forall g v g',
    m g = (Returned v, g') ->
    tokens_list g' = tokens_list g /\ index g + n <= index g'.

(** ** The language the parser accepts *)

Definition node_name (n : Node) : string :=
  match n with mkNode name _ => name end.

Definition node_children (n : Node) : list Node :=
  match n with mkNode _ children => children end.

(** One statement: the tokens it is made of and the node built from
    them. The tokens written [t], [u] and [l] are not looked at, except
    that a statement starting with [int] is a declaration. *)
Inductive statement : list string -> Node -> Prop :=
| st_declaration (t : string) :
    statement ["int"; t; ";"]
      (mkNode "Declaration" [leaf "int"; leaf t; leaf ";"])
| st_assignment (l t : string) :
    l <> "int" ->
    statement [l; "="; t; ";"]
      (mkNode "Assignment" [leaf l; leaf "="; leaf t; leaf ";"])
| st_assignment_plus (l t u : string) :
    l <> "int" ->
    statement [l; "="; t; "+"; u; ";"]
      (mkNode "Assignment"
         [leaf l; leaf "="; leaf t; leaf "+"; leaf u; leaf ";"]).

Inductive program : list string -> list Node -> Prop :=
| pr_nil : program [] []
| pr_cons (ts rest : list string) (n : Node) (ns : list Node) :
    statement ts n -> program rest ns -> program (ts ++ rest) (n :: ns).

(** The tokens under a statement node, left to right. *)
Definition frontier (root : Node) : list string :=
  flat_map (fun n => map node_name (node_children n)) (node_children root).

(** ** Words for the lexer's results *)

(** [''.join(parts)] *)
Definition join (parts : list string) : string :=
  fold_right String.append "" parts.

(** The characters of [s] that satisfy [p], in order. *)
Fixpoint keep (p : ascii -> bool) (s : string) : string :=
  match s with
  | EmptyString => ""
  | String c s' => if p c then String c (keep p s') else keep p s'
  end.

(** What a token of each kind looks like. *)
Definition token_shape (kind value : string) : Prop :=
  (kind = "KEYWORD" /\ value = "int")
  \/ (kind = "NUMBER" /\ value <> "" /\ Str.all is_digit value = true)
  \/ (kind = "ID"
      /\ exists c w, value = String c w /\ is_alpha_ c = true
                     /\ Str.all is_word w = true)
  \/ (kind = "OP" /\ exists c, value = String c "" /\ is_op c = true)
  \/ (kind = "SEMI" /\ value = ";").

(** A match is a non-empty prefix of the text. *)
Definition prefix_sound (groups : list (string * Re.pattern)) : Prop :=
  forall s name v,
    Re.alt groups s = Some (name, v) ->
    v <> "" /\ exists rest, s = v +:+ rest.

(** What holds of the two accumulators of [tokenize] all along the loop:
    the symbol table has each name once, maps it to [int], and its names
    are those of the identifier tokens seen so far. *)
Definition table_ok (acc : list (string * string) * list (string * string))
  : Prop :=
  let '(tokens, symbol_table) := acc in
  List.NoDup (map fst symbol_table)
  /\ (forall k v, In (k, v) symbol_table -> v = "int")
  /\ (forall k, In k (map fst symbol_table) <-> In ("ID", k) tokens).

(** The alternatives of the parser's regular expression, as [findall]
    scans them. *)
Definition parser_groups : list (string * Re.pattern) :=
  map (fun p => ("", p)) parser_regex.

(** A character that can be part of a token of the parser. *)
Definition token_char (c : ascii) : bool :=
  is_alpha_ c || is_digit c || is_op c || Ascii.eqb c ";".

(** ** Words for the line-oriented checkers *)

(** The number of occurrences of [c] in [s]. *)
Fixpoint count_char (c : ascii) (s : string) : nat :=
  match s with
  | EmptyString => 0
  | String a s' => (if Ascii.eqb a c then 1 else 0) + count_char c s'
  end.

(** A line on which [line.split()[1]] is out of range: it starts with
    [int] and has no second word. *)
Definition bare_declaration (line : string) : bool :=
  Str.startswith "int" (Str.strip line)
  && match nth_error (Str.split_ws (Str.strip line)) 1 with
     | None => true
     | Some _ => false
     end.

(** A match that is a token: the [kind != 'SKIP'] test of [tokenize]. *)
Definition not_blank (m : string * string) : bool :=
  negb (String.eqb (fst m) "SKIP").

(** ** Drawing the tree *)

(** The calls made on the [Digraph]: [dot.node(id, label)] and
    [dot.edge(tail, head)], in the order they are made. The [Digraph]
    object that [draw_tree] fills is this list, passed along.

    [str(id(node))] is modelled by the position of the node in the tree
    (the child indices on the way from the root): the parser creates
    every node afresh and adds it to one parent, so different positions
    are different objects. *)
Inductive dot_call : Type :=
| dot_node (id : list nat) (label : string)
| dot_edge (tail head : list nat).

(** [for child in node.children: body], [k] being the index of the
    child and [acc] what the body has built so far. *)
Fixpoint for_children {A : Type} (body : nat -> Node -> A -> A)
    (children : list Node) (k : nat) (acc : A) : A :=
  match children with
  | [] => acc
  | child :: children => for_children body children (S k) (body k child acc)
  end.

(** [draw_tree(node, dot)] with a [dot] that is not [None]; [self] is
    the position of [node]. *)
Fixpoint draw_tree_into (self : list nat) (node : Node) (dot : list dot_call)
  {struct node} : list dot_call :=
  match node with
  | mkNode _ children =>
      for_children
        (fun k child dot =>
           let dot := dot ++ [dot_node (self ++ [k]) (node_name child)] in
           let dot := dot ++ [dot_edge self (self ++ [k])] in
           draw_tree_into (self ++ [k]) child dot)
        children 0 dot
  end.

(** [draw_tree(node)]: a new [Digraph] with the root declared. *)
Definition draw_tree (node : Node) : list dot_call :=
  draw_tree_into [] node [dot_node [] (node_name node)].



Definition is_dot_node (c : dot_call) : bool :=
  match c with dot_node _ _ => true | dot_edge _ _ => false end.


(** ** The Compile button *)

(** The calls made on Streamlit when the button is clicked, in order.
    [st_parse_error e] stands for [st.error(f"Parse Error: {e}")]. *)
Inductive st_call : Type :=
| st_subheader (text : string)
| st_table (rows : list (string * string))
| st_error (text : string)
| st_success (text : string)
| st_graphviz_chart (dot : list dot_call)
| st_parse_error (e : exn).

(** The body of [if st.button("Compile")]: the calls made, the exception
    that escapes it if any, and the globals afterwards. Only the parser
    runs under [try]. *)
Definition compile_clicked (code_input : string) (g : globals)
  : option (list st_call * option exn * globals) :=
  let '(tokens, symbol_table) := tokenize code_input in
  let shown := [st_subheader "Tokens"; st_table tokens;
                st_subheader "Symbol Table"; st_table symbol_table] in
  let syntax_result := syntax_analysis code_input in
  let shown := shown ++ [st_subheader "Syntax Analysis";
                         st_table syntax_result] in
  match semantic_analysis code_input with
  | Raised e => Some (shown, Some e, g)
  | Returned semantic_errors =>
      let shown := shown ++ [st_subheader "Semantic Analysis"] in
      let shown :=
        shown ++ match semantic_errors with
                 | [] => [st_success "No semantic errors found!"]
                 | _ :: _ => map st_error semantic_errors
                 end in
      match build_parse_tree code_input g with
      | Some (Returned root, g') =>
          Some (shown ++ [st_subheader "Parse Tree";
                          st_graphviz_chart (draw_tree root)], None, g')
      | Some (Raised e, g') => Some (shown ++ [st_parse_error e], None, g')
      | None => None
      end
  end.

(** * Properties *)

Example tokenize_default :
  tokenize "int a;
b = a + 10;" =
  ([("KEYWORD","int"); ("ID","a"); ("SEMI",";"); ("ID","b"); ("OP","=");
    ("ID","a"); ("OP","+"); ("NUMBER","10"); ("SEMI",";")],
   [("a","int"); ("b","int")]).
Proof. vm_compute. reflexivity. Qed.

(** ** String and pattern lemmas *)

Lemma take_while_stops (p : ascii -> bool) (c : ascii) (pre post : string) :
  p c = false ->
  Str.take_while p (pre +:+ String c post) = Str.take_while p pre.
Proof.
  intros Hc. induction pre as [|a pre IH]; simpl.
  - now rewrite Hc.
  - destruct (p a); [now rewrite IH | reflexivity].
Qed.

Lemma take_while_length (p : ascii -> bool) (s : string) :
  String.length (Str.take_while p s) <= String.length s.
Proof.
  induction s as [|a s IH]; simpl; [lia|].
  destruct (p a); simpl; lia.
Qed.

Lemma prefix_stops (c : ascii) (post w pre : string) :
  Str.contains_char c w = false ->
  String.prefix w (pre +:+ String c post) = String.prefix w pre.
Proof.
  revert pre. induction w as [|x w IH]; intros pre Hw;
    [now destruct pre|].
  simpl in Hw. apply orb_false_iff in Hw as [Hx Hw].
  destruct pre as [|a pre]; simpl.
  - destruct (ascii_dec x c) as [->|]; [|reflexivity].
    now rewrite Ascii.eqb_refl in Hx.
  - destruct (ascii_dec x a); [now apply IH | reflexivity].
Qed.

Lemma prefix_length (w s : string) :
  String.prefix w s = true -> String.length w <= String.length s.
Proof.
  revert s. induction w as [|x w IH]; intros s H; simpl; [lia|].
  destruct s as [|a s]; simpl in *; [discriminate|].
  destruct (ascii_dec x a); [|discriminate].
  apply IH in H. lia.
Qed.

(** ** The scanner passes over a character that no alternative accepts *)

Section ScanLocal.

Variable groups : list (string * Re.pattern).
Variable c : ascii.

(** No alternative matches at [c]. *)
Hypothesis dead : forall post, Re.alt groups (String c post) = None.
(** A match that starts before [c] does not see [c] or what follows. *)
Hypothesis local : forall a pre post,
  Re.alt groups (String a pre +:+ String c post)
  = Re.alt groups (String a pre).
(** A match is no longer than the text it is found in. *)
Hypothesis short : forall s name v,
  Re.alt groups s = Some (name, v) -> String.length v <= String.length s.

Lemma scan_passes (pre post : string) (k : nat) :
  k <= String.length pre ->
  Re.scan groups k (pre +:+ String c post)
  = Re.scan groups k pre ++ Re.scan groups 0 post.
Proof.
  revert k. induction pre as [|a pre IH]; intros k Hk.
  - simpl in Hk. assert (k = 0) as -> by lia.
    simpl. now rewrite dead.
  - destruct k as [|k].
    + change (String a pre +:+ String c post)
        with (String a (pre +:+ String c post)).
      cbn [Re.scan].
      change (String a (pre +:+ String c post))
        with (String a pre +:+ String c post).
      rewrite local.
      destruct (Re.alt groups (String a pre)) as [[name v]|] eqn:E.
      * apply short in E. simpl in E.
        rewrite IH by lia. reflexivity.
      * apply IH. lia.
    + simpl. apply IH. simpl in Hk. lia.
Qed.

Lemma finditer_passes (pre post : string) :
  Re.finditer groups (pre +:+ String c post)
  = Re.finditer groups pre ++ Re.finditer groups post.
Proof. apply scan_passes. lia. Qed.

End ScanLocal.

(** ** The lexical rules are local and bounded *)

Lemma lit_local (c : ascii) (w : string) :
  Str.contains_char c w = false -> local_at c (Re.lit w).
Proof.
  intros Hw pre post. unfold Re.lit, Str.startswith.
  now rewrite prefix_stops.
Qed.

Lemma plus_local (c : ascii) (p : ascii -> bool) :
  p c = false -> local_at c (Re.plus p).
Proof.
  intros Hc [|a pre] post; simpl.
  - now rewrite Hc.
  - destruct (p a); [|reflexivity]. now rewrite take_while_stops.
Qed.

Lemma one_local (c : ascii) (p : ascii -> bool) :
  p c = false -> local_at c (Re.one p).
Proof. intros Hc [|a pre] post; simpl; [now rewrite Hc | reflexivity]. Qed.

Lemma ident_local (c : ascii) :
  is_alpha_ c = false -> is_word c = false -> local_at c Re.ident.
Proof.
  intros Ha Hw [|a pre] post; simpl.
  - now rewrite Ha.
  - destruct (is_alpha_ a); [|reflexivity]. now rewrite take_while_stops.
Qed.

Lemma lit_bounded (w : string) : bounded (Re.lit w).
Proof.
  intros s v. unfold Re.lit, Str.startswith.
  destruct (String.prefix w s) eqn:E; [|discriminate].
  intros [= <-]. now apply prefix_length.
Qed.

Lemma plus_bounded (p : ascii -> bool) : bounded (Re.plus p).
Proof.
  intros [|a s] v; simpl; [discriminate|].
  destruct (p a); [|discriminate]. intros [= <-]. simpl.
  pose proof (take_while_length p s). lia.
Qed.

Lemma one_bounded (p : ascii -> bool) : bounded (Re.one p).
Proof.
  intros [|a s] v; simpl; [discriminate|].
  destruct (p a); [|discriminate]. intros [= <-]. simpl. lia.
Qed.

Lemma ident_bounded : bounded Re.ident.
Proof.
  intros [|a s] v; simpl; [discriminate|].
  destruct (is_alpha_ a); [|discriminate]. intros [= <-]. simpl.
  pose proof (take_while_length is_word s). lia.
Qed.

Lemma alt_local (c : ascii) (groups : list (string * Re.pattern)) :
  Forall (fun g => local_at c (snd g)) groups ->
  forall pre post,
    Re.alt groups (pre +:+ String c post) = Re.alt groups pre.
Proof.
  induction 1 as [|[name p] groups Hp _ IH]; intros pre post; simpl;
    [reflexivity|].
  simpl in Hp. rewrite Hp, IH. reflexivity.
Qed.

Lemma alt_bounded (groups : list (string * Re.pattern)) :
  Forall (fun g => bounded (snd g)) groups ->
  forall s name v,
    Re.alt groups s = Some (name, v) -> String.length v <= String.length s.
Proof.
  induction 1 as [|[n p] groups Hp _ IH]; intros s name v; simpl;
    [discriminate|].
  destruct (p s) as [w|] eqn:E.
  - intros [= _ <-]. now apply Hp.
  - apply IH.
Qed.

Lemma unrecognized_classes (c : ascii) :
  unrecognized c = true ->
  is_alpha_ c = false /\ is_digit c = false /\ is_op c = false
  /\ Ascii.eqb c ";" = false /\ is_skip c = false.
Proof.
  unfold unrecognized. rewrite negb_true_iff, !orb_false_iff. tauto.
Qed.

Lemma not_alpha_not_in_int (c : ascii) :
  is_alpha_ c = false -> Str.contains_char c "int" = false.
Proof.
  intros H. cbn [Str.contains_char].
  destruct (Ascii.eqb "i" c) eqn:Ei;
    [apply Ascii.eqb_eq in Ei; subst; discriminate|].
  destruct (Ascii.eqb "n" c) eqn:En;
    [apply Ascii.eqb_eq in En; subst; discriminate|].
  destruct (Ascii.eqb "t" c) eqn:Et;
    [apply Ascii.eqb_eq in Et; subst; discriminate|].
  reflexivity.
Qed.

Lemma token_specification_local (c : ascii) :
  unrecognized c = true ->
  Forall (fun g => local_at c (snd g)) token_specification.
Proof.
  intros H. apply unrecognized_classes in H as (Ha & Hd & Ho & Hs & Hk).
  unfold token_specification. repeat constructor; simpl.
  - now apply lit_local, not_alpha_not_in_int.
  - now apply plus_local.
  - apply ident_local; [assumption|].
    unfold is_word. now rewrite Ha, Hd.
  - now apply one_local.
  - apply lit_local. cbn [Str.contains_char].
    rewrite Ascii.eqb_sym, Hs. reflexivity.
  - now apply plus_local.
Qed.

Lemma token_specification_bounded :
  Forall (fun g => bounded (snd g)) token_specification.
Proof.
  unfold token_specification. repeat constructor; simpl;
    auto using lit_bounded, plus_bounded, one_bounded, ident_bounded.
Qed.

Lemma finditer_unrecognized (c : ascii) (pre post : string) :
  unrecognized c = true ->
  Re.finditer token_specification (pre +:+ String c post)
  = Re.finditer token_specification pre
    ++ Re.finditer token_specification post.
Proof.
  intros H. apply finditer_passes.
  - intros post'.
    exact (alt_local c _ (token_specification_local c H) "" post').
  - intros a pre' post'.
    apply (alt_local c _ (token_specification_local c H)).
  - apply alt_bounded, token_specification_bounded.
Qed.

Lemma unrecognized_iff (c : ascii) :
  unrecognized c = true
  <-> forall post, Re.alt token_specification (String c post) = None.
Proof.
  split.
  - intros H post.
    exact (alt_local c _ (token_specification_local c H) "" post).
  - intros H. specialize (H ""). unfold unrecognized.
    apply negb_true_iff. rewrite !orb_false_iff.
    unfold token_specification in H. cbn [Re.alt] in H.
    destruct (Re.lit "int" (String c "")); [discriminate|].
    unfold Re.plus, Re.ident, Re.one in H.
    destruct (is_digit c) eqn:Hd; [discriminate|].
    destruct (is_alpha_ c) eqn:Ha; [discriminate|].
    destruct (is_op c) eqn:Ho; [discriminate|].
    destruct (is_skip c) eqn:Hk;
      [destruct (Re.lit ";" (String c "")); discriminate|].
    destruct (Ascii.eqb c ";") eqn:Hs; [|tauto].
    apply Ascii.eqb_eq in Hs. subst. discriminate.
Qed.

(** ** The accumulators of [tokenize] *)

Lemma tokenize_step_app (pre tokens st : list (string * string))
    (m : string * string) :
  tokenize_step (pre ++ tokens, st) m
  = (pre ++ fst (tokenize_step (tokens, st) m),
     snd (tokenize_step (tokens, st) m)).
Proof.
  destruct m as [kind value]. unfold tokenize_step.
  destruct (negb (String.eqb kind "SKIP")); simpl;
    now rewrite <- ?app_assoc.
Qed.

Lemma tokenize_fold_app (ms pre tokens st : list (string * string)) :
  fold_left tokenize_step ms (pre ++ tokens, st)
  = (pre ++ fst (fold_left tokenize_step ms (tokens, st)),
     snd (fold_left tokenize_step ms (tokens, st))).
Proof.
  revert tokens st.
  induction ms as [|m ms IH]; intros tokens st; cbn [fold_left];
    [reflexivity|].
  rewrite tokenize_step_app.
  destruct (tokenize_step (tokens, st) m) as [tokens' st']. apply IH.
Qed.

Lemma finditer_int (rest : string) :
  Re.finditer token_specification ("int" +:+ rest)
  = ("KEYWORD", "int") :: Re.finditer token_specification rest.
Proof.
  unfold Re.finditer.
  change ("int" +:+ rest) with (String "i" (String "n" (String "t" rest))).
  cbn [Re.scan].
  assert (Re.alt token_specification (String "i" (String "n" (String "t" rest)))
          = Some ("KEYWORD", "int")) as ->
    by (destruct rest; reflexivity).
  reflexivity.
Qed.

(** ** The parser advances *)

Lemma steps_ret {A : Type} (v : A) : steps 0 (ret v).
Proof. intros g w g' [= <- <-]. split; [reflexivity | lia]. Qed.

Lemma steps_current : steps 0 current.
Proof.
  intros g v g'. unfold current.
  destruct (nth_error (tokens_list g) (index g)); intros [= <- <-].
  split; [reflexivity | lia].
Qed.

Lemma steps_advance : steps 1 advance.
Proof. intros g v g' [= <- <-]. simpl. split; [reflexivity | lia]. Qed.

Lemma steps_bind {A B : Type} (n k : nat) (m : M A) (f : A -> M B) :
  steps n m -> (forall v, steps k (f v)) -> steps (n + k) (bind m f).
Proof.
  intros Hm Hf g v g'. unfold bind.
  destruct (m g) as [[w|e] g1] eqn:E; [|discriminate].
  intros H. apply Hm in E as [E1 E2]. apply Hf in H as [H1 H2].
  split; [congruence | lia].
Qed.

Lemma steps_weaken {A : Type} (n k : nat) (m : M A) :
  steps n m -> k <= n -> steps k m.
Proof.
  intros Hm Hk g v g' H. apply Hm in H as [H1 H2]. split; [assumption | lia].
Qed.

Lemma steps_if {A : Type} (n : nat) (b : globals -> bool) (m1 m2 : M A) :
  steps n m1 -> steps n m2 -> steps n (fun g => if b g then m1 g else m2 g).
Proof.
  intros H1 H2 g v g'. destruct (b g); [apply H1 | apply H2].
Qed.

Lemma steps_raise {A : Type} (n : nat) (e : exn) : steps n (@raise A e).
Proof. intros g v g'. discriminate. Qed.

Lemma steps_match (expected : string) : steps 1 (match_ expected).
Proof.
  unfold match_.
  apply (steps_if 1 (at_token expected)).
  - apply (steps_bind 1 0); [apply steps_advance | intros; apply steps_ret].
  - apply (steps_bind 0 1); [apply steps_current | intros; apply steps_raise].
Qed.

Lemma steps_parse_declaration : steps 3 parse_declaration.
Proof.
  unfold parse_declaration.
  apply (steps_bind 1 2); [apply steps_match | intros].
  apply (steps_bind 0 2); [apply steps_current | intros].
  apply (steps_bind 1 1); [apply steps_advance | intros].
  apply (steps_bind 1 0); [apply steps_match | intros; apply steps_ret].
Qed.

Lemma steps_parse_assignment : steps 4 parse_assignment.
Proof.
  unfold parse_assignment.
  apply (steps_bind 0 4); [apply steps_current | intros].
  apply (steps_bind 1 3); [apply steps_advance | intros].
  apply (steps_bind 1 2); [apply steps_match | intros].
  apply (steps_bind 0 2); [apply steps_current | intros].
  apply (steps_bind 1 1); [apply steps_advance | intros].
  apply (steps_bind 0 1).
  - apply (steps_if 0 (at_token "+")); [|apply steps_ret].
    apply (steps_weaken 2); [|lia].
    apply (steps_bind 1 1); [apply steps_match | intros].
    apply (steps_bind 0 1); [apply steps_current | intros].
    apply (steps_bind 1 0); [apply steps_advance | intros; apply steps_ret].
  - intros. apply (steps_bind 1 0); [apply steps_match | intros; apply steps_ret].
Qed.

Lemma parse_program_loop_total (fuel : nat) :
  forall node g,
    length (tokens_list g) - index g <= fuel ->
    exists r, parse_program_loop fuel node g = Some r.
Proof.
  induction fuel as [|fuel IH]; intros node g Hf; simpl.
  - destruct (index g <? length (tokens_list g)) eqn:E; [|eauto].
    apply Nat.ltb_lt in E. lia.
  - destruct (index g <? length (tokens_list g)) eqn:E; [|eauto].
    apply Nat.ltb_lt in E.
    destruct ((if at_token "int" g then parse_declaration else parse_assignment) g)
      as [[child|e] g'] eqn:Es; [|eauto].
    apply IH.
    destruct (at_token "int" g).
    + apply steps_parse_declaration in Es as [-> ?]. lia.
    + apply steps_parse_assignment in Es as [-> ?]. lia.
Qed.

(** The parser always returns or raises: the fuel never runs out. *)
Lemma parse_program_total (g : globals) : exists r, parse_program g = Some r.
Proof. apply parse_program_loop_total. lia. Qed.

Lemma build_parse_tree_total (code : string) (g : globals) :
  exists r, build_parse_tree code g = Some r.
Proof. apply parse_program_total. Qed.

(** What the globals held before the call does not reach the result. *)
Lemma build_parse_tree_fresh (code : string) (g g' : globals) :
  build_parse_tree code g = build_parse_tree code g'.
Proof. reflexivity. Qed.

Lemma call_total (p : phase) (code : string) (g : globals) :
  exists out g', call p code g = Some (out, g').
Proof.
  destruct p; simpl.
  - destruct (tokenize code). eauto.
  - eauto.
  - destruct (semantic_analysis code); eauto.
  - destruct (build_parse_tree_total code g) as [[[root|e] g'] ->]; eauto.
Qed.

Lemma call_fresh (p : phase) (code : string) (g g' : globals) :
  option_map fst (call p code g) = option_map fst (call p code g').
Proof.
  destruct p; simpl.
  - now destruct (tokenize code).
  - reflexivity.
  - now destruct (semantic_analysis code).
  - rewrite (build_parse_tree_fresh code g g').
    destruct (build_parse_tree code g') as [[[root|e] g1]|]; reflexivity.
Qed.

(** [for line in lines: result.append(f(line))] builds [map f lines]. *)
Lemma fold_left_append {A B : Type} (f : A -> B) (l : list A) (acc : list B) :
  fold_left (fun result x => result ++ [f x]) l acc = acc ++ map f l.
Proof.
  revert acc. induction l as [|x l IH]; intros acc; simpl.
  - now rewrite app_nil_r.
  - rewrite IH, <- app_assoc. reflexivity.
Qed.

(** * The claims *)

(** C1: on the three lines [int a;], [int a;], [a = b;] the semantic
    checker returns exactly two errors, the duplicate declaration of [a]
    followed by the undeclared variable [b], and no others. *)
Theorem C1_duplicate_then_undeclared :
  semantic_analysis ("int a;" +:+ LF +:+ "int a;" +:+ LF +:+ "a = b;" +:+ LF)
  = Returned [ "Semantic Error: Multiple declaration of 'a'";
               "Semantic Error: Undeclared variable 'b'" ].
Proof. vm_compute. reflexivity. Qed.

(** C2: parsing [int a;] then [a = 5;] returns a Program root with two
    children in source order, a Declaration with leaves [int], [a], [;]
    and an Assignment with leaves [a], [=], [5], [;] and no additive
    part, whatever the globals held before. *)
Theorem C2_declaration_then_assignment (g : globals) :
  build_parse_tree ("int a;" +:+ LF +:+ "a = 5;" +:+ LF) g
  = Some (Returned
            (mkNode "Program"
               [ mkNode "Declaration" [leaf "int"; leaf "a"; leaf ";"];
                 mkNode "Assignment" [leaf "a"; leaf "="; leaf "5"; leaf ";"] ]),
          mkGlobals ["int"; "a"; ";"; "a"; "="; "5"; ";"] 7).
Proof. vm_compute. reflexivity. Qed.

(** C3: the grammar checker gives each line of the trimmed input, in
    source order, one verdict on the trimmed line by the fixed priority
    (declaration, else assignment, else syntax error); on [int a;],
    [a = 5;], [b] the verdicts are Valid Declaration, Valid Assignment,
    Syntax Error. *)
Theorem C3_verdict_priority :
  (forall code,
      Forall2 (fun raw r => fst r = Str.strip raw /\ spec_verdict (fst r) (snd r))
              (Str.split_char "010" (Str.strip code)) (syntax_analysis code))
  /\ syntax_analysis ("int a;" +:+ LF +:+ "a = 5;" +:+ LF +:+ "b" +:+ LF)
     = [ ("int a;", "Valid Declaration");
         ("a = 5;", "Valid Assignment");
         ("b", "Syntax Error") ].
Proof.
  split; [|vm_compute; reflexivity].
  intros code. unfold syntax_analysis.
  rewrite (fold_left_append (fun line => (Str.strip line, verdict (Str.strip line)))).
  simpl. induction (Str.split_char "010" (Str.strip code)) as [|raw l IH];
    simpl; constructor; [|exact IH].
  simpl. split; [reflexivity|].
  unfold spec_verdict, verdict.
  destruct (Str.startswith "int" (Str.strip raw));
    destruct (Str.endswith_char ";" (Str.strip raw));
    destruct (Str.contains_char "=" (Str.strip raw)); simpl;
    intuition congruence.
Qed.

(** C4, as the spec states it, fails on the code: parsing [a = ;] does
    not end in a SyntaxError at all. *)
Lemma C4_counterexample :
  build_parse_tree "a = ;" g0
  = Some (Raised IndexError, mkGlobals ["a"; "="; ";"] 3)
  /\ ~ (exists msg g',
          build_parse_tree "a = ;" g0 = Some (Raised (SyntaxError msg), g')).
Proof.
  split; [vm_compute; reflexivity|].
  intros (msg & g' & H). vm_compute in H. discriminate.
Qed.

(** C4, amended: parsing [a = ;] fails and returns no tree; the [;] is
    taken as the term without a check of its class, and the failure comes
    only after all three tokens are consumed, where the closing [;] is
    looked for. *)
Theorem C4_fails_after_unchecked_term (g : globals) :
  exists e g',
    build_parse_tree "a = ;" g = Some (Raised e, g')
    /\ tokens_list g' = ["a"; "="; ";"] /\ index g' = 3.
Proof.
  exists IndexError, (mkGlobals ["a"; "="; ";"] 3).
  split; [vm_compute; reflexivity | split; reflexivity].
Qed.

(** C5: the semantic checker does not run to completion on every input:
    on the bare keyword, [int] or [int;], the subscript
    [line.split()[1]] raises IndexError and no error list is returned. *)
Theorem C5_bare_keyword_raises :
  semantic_analysis "int" = Raised IndexError
  /\ semantic_analysis "int;" = Raised IndexError
  /\ semantic_analysis ("int a;" +:+ LF +:+ "int" +:+ LF +:+ "b = 1;")
     = Raised IndexError.
Proof.
  split; [vm_compute; reflexivity|].
  split; vm_compute; reflexivity.
Qed.

(** C6: the keyword alternative wins wherever the text at the scan
    position begins with [int], whatever follows: [integer] lexes as the
    keyword [int] and the identifier [eger], not as one identifier. *)
Theorem C6_keyword_splits_identifier :
  tokenize "integer"
  = ([("KEYWORD", "int"); ("ID", "eger")], [("eger", "int")])
  /\ forall rest,
      tokenize ("int" +:+ rest)
      = (("KEYWORD", "int") :: fst (tokenize rest), snd (tokenize rest)).
Proof.
  split; [vm_compute; reflexivity|].
  intros rest. unfold tokenize. rewrite finditer_int.
  cbn [fold_left].
  change (tokenize_step ([], []) ("KEYWORD", "int"))
    with ([("KEYWORD", "int")] ++ [], @nil (string * string)).
  rewrite tokenize_fold_app. reflexivity.
Qed.

(** C7, as the spec states it, fails on the code: [a@b] holds a character
    that no lexical rule accepts, and the lexer returns a token stream. *)
Lemma C7_counterexample :
  Str.all (fun c => negb (unrecognized c)) "a@b" = false
  /\ call Tokenize "a@b" g0
     = Some (Returned (Tokens [("ID", "a"); ("ID", "b")]
                              [("a", "int"); ("b", "int")]), g0)
  /\ ~ (exists e g', call Tokenize "a@b" g0 = Some (Raised e, g')).
Proof.
  split; [vm_compute; reflexivity|].
  split; [vm_compute; reflexivity|].
  intros (e & g' & H). vm_compute in H. discriminate.
Qed.

(** C7, amended: the lexer never fails. A character that no lexical rule
    accepts yields no token and ends the token before it; scanning goes
    on after it with the tokens and the symbol table gathered so far, and
    the call returns them. *)
Theorem C7_unrecognized_is_skipped (pre post : string) (c : ascii)
    (g : globals) :
  unrecognized c = true ->
  tokenize (pre +:+ String c post)
  = fold_left tokenize_step (Re.finditer token_specification post)
              (tokenize pre)
  /\ exists tokens symbol_table,
      call Tokenize (pre +:+ String c post) g
      = Some (Returned (Tokens tokens symbol_table), g).
Proof.
  intros H. split.
  - unfold tokenize. rewrite finditer_unrecognized by assumption.
    apply fold_left_app.
  - simpl. destruct (tokenize (pre +:+ String c post)). eauto.
Qed.

Lemma C7_unrecognized_is_skipped_witness :
  unrecognized "@" = true
  /\ tokenize ("a" +:+ String "@" "b")
     = fold_left tokenize_step (Re.finditer token_specification "b")
                 (tokenize "a").
Proof.
  split; [reflexivity|].
  apply (C7_unrecognized_is_skipped "a" "b" "@" g0). reflexivity.
Defined.

(** C8: on empty input [tokenize] returns no token and an empty symbol
    table, the semantic checker no error and the parser a Program node
    without children; the grammar checker returns one verdict, Syntax
    Error for the empty line, not an empty list. *)
Theorem C8_empty_input :
  tokenize "" = ([], [])
  /\ semantic_analysis "" = Returned []
  /\ (forall g, build_parse_tree "" g
                = Some (Returned (mkNode "Program" []), mkGlobals [] 0))
  /\ syntax_analysis "" = [("", "Syntax Error")].
Proof.
  split; [vm_compute; reflexivity|].
  split; [vm_compute; reflexivity|].
  split; [intros g|]; vm_compute; reflexivity.
Qed.

(** C9: each of the four functions, called twice in sequence on the same
    input, gives the same outcome both times, whatever the globals held
    before the first call; and the outcome of a call does not depend on
    the globals at all. *)
Theorem C9_same_outcome_twice (p : phase) (code : string) (g : globals) :
  (exists out g1 g2,
      call p code g = Some (out, g1) /\ call p code g1 = Some (out, g2))
  /\ forall g', option_map fst (call p code g) = option_map fst (call p code g').
Proof.
  split; [|apply call_fresh].
  destruct (call_total p code g) as (out & g1 & H1).
  destruct (call_total p code g1) as (out' & g2 & H2).
  exists out, g1, g2. split; [assumption|].
  pose proof (call_fresh p code g g1) as E. rewrite H1, H2 in E.
  simpl in E. congruence.
Qed.

(** C10: the parser does not check the token at an identifier or term
    position: any token between [int] and [;] gives a Declaration, any
    token after [=] gives an Assignment, so [int ; ;] and [a = = ;] parse
    to complete trees. *)
Theorem C10_positions_not_validated :
  (forall t,
      parse_program (mkGlobals ["int"; t; ";"] 0)
      = Some (Returned
                (mkNode "Program"
                   [mkNode "Declaration" [leaf "int"; leaf t; leaf ";"]]),
              mkGlobals ["int"; t; ";"] 3))
  /\ (forall l t,
         l <> "int" ->
         parse_program (mkGlobals [l; "="; t; ";"] 0)
         = Some (Returned
                   (mkNode "Program"
                      [mkNode "Assignment" [leaf l; leaf "="; leaf t; leaf ";"]]),
                 mkGlobals [l; "="; t; ";"] 4))
  /\ (forall g,
         build_parse_tree "int ; ;" g
         = Some (Returned
                   (mkNode "Program"
                      [mkNode "Declaration" [leaf "int"; leaf ";"; leaf ";"]]),
                 mkGlobals ["int"; ";"; ";"] 3))
  /\ (forall g,
         build_parse_tree "a = = ;" g
         = Some (Returned
                   (mkNode "Program"
                      [mkNode "Assignment" [leaf "a"; leaf "="; leaf "="; leaf ";"]]),
                 mkGlobals ["a"; "="; "="; ";"] 4)).
Proof.
  split; [intros t; reflexivity|].
  split; [|split; intros g; vm_compute; reflexivity].
  intros l t Hl. apply String.eqb_neq in Hl.
  unfold parse_program. cbn [tokens_list index length Nat.sub].
  cbn [parse_program_loop tokens_list index length Nat.ltb Nat.leb].
  unfold at_token at 1. cbn [tokens_list index length nth_error Nat.ltb Nat.leb andb].
  rewrite Hl. reflexivity.
Qed.

Lemma C10_positions_not_validated_witness :
  "=" <> "int"
  /\ parse_program (mkGlobals ["="; "="; ";"; ";"] 0)
     = Some (Returned
               (mkNode "Program"
                  [mkNode "Assignment" [leaf "="; leaf "="; leaf ";"; leaf ";"]]),
             mkGlobals ["="; "="; ";"; ";"] 4).
Proof.
  assert (H : "=" <> "int") by discriminate.
  split; [exact H|].
  exact (proj1 (proj2 C10_positions_not_validated) "=" ";" H).
Defined.

(** * Further properties of the parser *)

(** ** The cursor as a view of the tokens still to read *)

Lemma skipn_add_1 {A : Type} (l : list A) (i : nat) :
  skipn (i + 1) l = tl (skipn i l).
Proof.
  revert l. induction i as [|i IH]; intros [|x l]; simpl; try reflexivity.
  apply IH.
Qed.

Lemma current_skipn (toks : list string) (i : nat) :
  current (mkGlobals toks i)
  = match skipn i toks with
    | t :: _ => (Returned t, mkGlobals toks i)
    | [] => (Raised IndexError, mkGlobals toks i)
    end.
Proof.
  unfold current. cbn [tokens_list index].
  rewrite <- hd_error_skipn. now destruct (skipn i toks).
Qed.

Lemma at_token_skipn (expected : string) (toks : list string) (i : nat) :
  at_token expected (mkGlobals toks i)
  = match skipn i toks with
    | t :: _ => String.eqb t expected
    | [] => false
    end.
Proof.
  unfold at_token. cbn [tokens_list index].
  destruct (nth_error toks i) as [t|] eqn:E.
  - assert (i < length toks) as Hi by (apply nth_error_Some; congruence).
    apply Nat.ltb_lt in Hi. rewrite Hi.
    rewrite <- hd_error_skipn in E. destruct (skipn i toks); simpl in E.
    + discriminate.
    + now injection E as ->.
  - rewrite andb_false_r.
    rewrite <- hd_error_skipn in E. now destruct (skipn i toks).
Qed.

Lemma match_skipn (expected : string) (toks : list string) (i : nat) :
  match_ expected (mkGlobals toks i)
  = match skipn i toks with
    | t :: _ =>
        if String.eqb t expected
        then (Returned (leaf expected), mkGlobals toks (i + 1))
        else (Raised (SyntaxError (expected_found expected t)),
              mkGlobals toks i)
    | [] => (Raised IndexError, mkGlobals toks i)
    end.
Proof.
  unfold match_. rewrite at_token_skipn.
  unfold bind. rewrite current_skipn.
  destruct (skipn i toks) as [|t r]; [reflexivity|].
  destruct (String.eqb t expected); reflexivity.
Qed.

Ltac see E := rewrite ?skipn_add_1, ?E; cbn [tl].
Ltac step_match E := rewrite match_skipn; see E.
Ltac step_current E := rewrite current_skipn; see E.
Ltac step_at E := rewrite at_token_skipn; see E.
Ltac step_advance := unfold advance at 1; cbn [tokens_list index].

Lemma parse_declaration_skipn (toks : list string) (i : nat) :
  parse_declaration (mkGlobals toks i)
  = match skipn i toks with
    | [] => (Raised IndexError, mkGlobals toks i)
    | a :: r1 =>
        if String.eqb a "int" then
          match r1 with
          | [] => (Raised IndexError, mkGlobals toks (i + 1))
          | t :: [] => (Raised IndexError, mkGlobals toks (i + 1 + 1))
          | t :: c :: _ =>
              if String.eqb c ";"
              then (Returned
                      (mkNode "Declaration" [leaf "int"; leaf t; leaf ";"]),
                    mkGlobals toks (i + 1 + 1 + 1))
              else (Raised (SyntaxError (expected_found ";" c)),
                    mkGlobals toks (i + 1 + 1))
          end
        else (Raised (SyntaxError (expected_found "int" a)), mkGlobals toks i)
    end.
Proof.
  unfold parse_declaration, bind.
  rewrite match_skipn.
  destruct (skipn i toks) as [|a r1] eqn:E; [reflexivity|].
  destruct (String.eqb a "int"); [|reflexivity].
  step_current E. destruct r1 as [|t r2]; [reflexivity|].
  step_advance.
  step_match E. destruct r2 as [|c r3]; [reflexivity|].
  destruct (String.eqb c ";"); reflexivity.
Qed.

Lemma parse_assignment_skipn (toks : list string) (i : nat) :
  parse_assignment (mkGlobals toks i)
  = match skipn i toks with
    | [] => (Raised IndexError, mkGlobals toks i)
    | l :: [] => (Raised IndexError, mkGlobals toks (i + 1))
    | l :: e :: r2 =>
        if String.eqb e "=" then
          match r2 with
          | [] => (Raised IndexError, mkGlobals toks (i + 1 + 1))
          | t :: [] => (Raised IndexError, mkGlobals toks (i + 1 + 1 + 1))
          | t :: p :: r4 =>
              if String.eqb p "+" then
                match r4 with
                | [] => (Raised IndexError,
                         mkGlobals toks (i + 1 + 1 + 1 + 1))
                | u :: [] => (Raised IndexError,
                              mkGlobals toks (i + 1 + 1 + 1 + 1 + 1))
                | u :: c :: _ =>
                    if String.eqb c ";"
                    then (Returned
                            (mkNode "Assignment"
                               [leaf l; leaf "="; leaf t; leaf "+"; leaf u;
                                leaf ";"]),
                          mkGlobals toks (i + 1 + 1 + 1 + 1 + 1 + 1))
                    else (Raised (SyntaxError (expected_found ";" c)),
                          mkGlobals toks (i + 1 + 1 + 1 + 1 + 1))
                end
              else if String.eqb p ";"
              then (Returned
                      (mkNode "Assignment"
                         [leaf l; leaf "="; leaf t; leaf ";"]),
                    mkGlobals toks (i + 1 + 1 + 1 + 1))
              else (Raised (SyntaxError (expected_found ";" p)),
                    mkGlobals toks (i + 1 + 1 + 1))
          end
        else (Raised (SyntaxError (expected_found "=" e)),
              mkGlobals toks (i + 1))
    end.
Proof.
  unfold parse_assignment, bind.
  rewrite current_skipn.
  destruct (skipn i toks) as [|l r1] eqn:E; [reflexivity|].
  step_advance.
  step_match E. destruct r1 as [|e r2]; [reflexivity|].
  destruct (String.eqb e "="); [|reflexivity].
  step_current E. destruct r2 as [|t r3]; [reflexivity|].
  step_advance.
  step_at E.
  destruct r3 as [|p r4]; [unfold ret at 1; step_match E; reflexivity|].
  destruct (String.eqb p "+") eqn:Ep.
  - step_match E. rewrite Ep.
    step_current E. destruct r4 as [|u r5]; [reflexivity|].
    step_advance. unfold ret at 1.
    step_match E. destruct r5 as [|c r6]; [reflexivity|].
    destruct (String.eqb c ";"); reflexivity.
  - unfold ret at 1. step_match E.
    destruct (String.eqb p ";"); reflexivity.
Qed.

(** ** One statement *)

Lemma skipn_after {A : Type} (l ts r : list A) (i : nat) :
  skipn i l = ts ++ r -> skipn (i + length ts) l = r.
Proof.
  intros E. rewrite Nat.add_comm, <- skipn_skipn, E.
  rewrite skipn_app, skipn_all, Nat.sub_diag. reflexivity.
Qed.

Lemma skipn_within {A : Type} (l ts r : list A) (i : nat) :
  skipn i l = ts ++ r -> i + length ts + length r = length l \/ ts ++ r = [].
Proof.
  intros E. destruct (le_lt_dec (length l) i) as [Hi|Hi].
  - right. rewrite <- E. now apply skipn_all2.
  - left. apply (f_equal (@length A)) in E.
    rewrite length_skipn, length_app in E. lia.
Qed.

(** A statement that returns was read off the tokens under the cursor,
    and the cursor has moved past exactly those. *)
Lemma statement_sound (toks : list string) (i : nat) (child : Node)
    (g' : globals) :
  (if at_token "int" (mkGlobals toks i) then parse_declaration
   else parse_assignment) (mkGlobals toks i) = (Returned child, g') ->
  exists ts,
    statement ts child
    /\ skipn i toks = ts ++ skipn (i + length ts) toks
    /\ g' = mkGlobals toks (i + length ts).
Proof.
  rewrite at_token_skipn.
  destruct (skipn i toks) as [|a r1] eqn:E.
  - rewrite parse_assignment_skipn, E. discriminate.
  - destruct (String.eqb a "int") eqn:Ea.
    + rewrite parse_declaration_skipn, E, Ea.
      apply String.eqb_eq in Ea. subst a.
      destruct r1 as [|t [|c r3]]; try discriminate.
      destruct (String.eqb c ";") eqn:Ec; [|discriminate].
      apply String.eqb_eq in Ec. subst c. intros [= <- <-].
      exists ["int"; t; ";"]. split; [constructor|].
      rewrite (skipn_after toks ["int"; t; ";"] r3 i E).
      split; [reflexivity|]. f_equal. simpl. lia.
    + rewrite parse_assignment_skipn, E.
      apply String.eqb_neq in Ea.
      destruct r1 as [|e r2]; [discriminate|].
      destruct (String.eqb e "=") eqn:Ee; [|discriminate].
      apply String.eqb_eq in Ee. subst e.
      destruct r2 as [|t [|p r4]]; try discriminate.
      destruct (String.eqb p "+") eqn:Ep.
      * apply String.eqb_eq in Ep. subst p.
        destruct r4 as [|u [|c r6]]; try discriminate.
        destruct (String.eqb c ";") eqn:Ec; [|discriminate].
        apply String.eqb_eq in Ec. subst c. intros [= <- <-].
        exists [a; "="; t; "+"; u; ";"]. split; [now constructor|].
        rewrite (skipn_after toks [a; "="; t; "+"; u; ";"] r6 i E).
        split; [reflexivity|]. f_equal. simpl. lia.
      * destruct (String.eqb p ";") eqn:Ec; [|discriminate].
        apply String.eqb_eq in Ec. subst p. intros [= <- <-].
        exists [a; "="; t; ";"]. split; [now constructor|].
        rewrite (skipn_after toks [a; "="; t; ";"] r4 i E).
        split; [reflexivity|]. f_equal. simpl. lia.
Qed.

(** Conversely, a statement under the cursor is parsed to its node. *)
Lemma statement_complete (toks ts rest : list string) (i : nat) (n : Node) :
  statement ts n ->
  skipn i toks = ts ++ rest ->
  (if at_token "int" (mkGlobals toks i) then parse_declaration
   else parse_assignment) (mkGlobals toks i)
  = (Returned n, mkGlobals toks (i + length ts)).
Proof.
  intros Hs E. rewrite at_token_skipn.
  destruct Hs as [t | l t Hl | l t u Hl]; simpl in E; rewrite E.
  - cbn [String.eqb Ascii.eqb Bool.eqb].
    rewrite parse_declaration_skipn, E. cbn. do 2 f_equal. lia.
  - apply String.eqb_neq in Hl. rewrite Hl.
    rewrite parse_assignment_skipn, E. cbn. do 2 f_equal. lia.
  - apply String.eqb_neq in Hl. rewrite Hl.
    rewrite parse_assignment_skipn, E. cbn. do 2 f_equal. lia.
Qed.

Lemma statement_nonempty (ts : list string) (n : Node) :
  statement ts n -> 3 <= length ts.
Proof. destruct 1; simpl; lia. Qed.

(** A statement that raises: either the tokens ran out, or the token
    under the cursor is not the [=] or [;] that is due. *)
Lemma statement_failure (toks : list string) (i : nat) (e : exn)
    (g' : globals) :
  i < length toks ->
  (if at_token "int" (mkGlobals toks i) then parse_declaration
   else parse_assignment) (mkGlobals toks i) = (Raised e, g') ->
  tokens_list g' = toks
  /\ ((e = IndexError /\ index g' = length toks)
      \/ exists expected found,
          (expected = "=" \/ expected = ";")
          /\ e = SyntaxError (expected_found expected found)
          /\ nth_error toks (index g') = Some found).
Proof.
  intros Hi. rewrite at_token_skipn.
  pose proof (length_skipn i toks) as L.
  assert (forall k, nth_error toks (i + k) = nth_error (skipn i toks) k) as N
    by (intros k; now rewrite nth_error_skipn).
  destruct (skipn i toks) as [|a r1] eqn:E; [simpl in L; lia|].
  destruct (String.eqb a "int") eqn:Ea.
  - rewrite parse_declaration_skipn, E, Ea.
    destruct r1 as [|t [|c r3]]; try (intros [= <- <-]; simpl in *;
      split; [reflexivity | left; split; [reflexivity | lia]]).
    destruct (String.eqb c ";"); [discriminate|].
    intros [= <- <-]. split; [reflexivity|]. right.
    exists ";", c. repeat split; [now right|].
    cbn [index]. replace (i + 1 + 1) with (i + 2) by lia. now rewrite N.
  - rewrite parse_assignment_skipn, E.
    destruct r1 as [|x r2];
      [intros [= <- <-]; simpl in *;
       split; [reflexivity | left; split; [reflexivity | lia]]|].
    destruct (String.eqb x "=").
    + destruct r2 as [|t [|p r4]]; try (intros [= <- <-]; simpl in *;
        split; [reflexivity | left; split; [reflexivity | lia]]).
      destruct (String.eqb p "+").
      * destruct r4 as [|u [|c r6]]; try (intros [= <- <-]; simpl in *;
          split; [reflexivity | left; split; [reflexivity | lia]]).
        destruct (String.eqb c ";"); [discriminate|].
        intros [= <- <-]. split; [reflexivity|]. right.
        exists ";", c. repeat split; [now right|].
        cbn [index]. replace (i + 1 + 1 + 1 + 1 + 1) with (i + 5) by lia.
        now rewrite N.
      * destruct (String.eqb p ";"); [discriminate|].
        intros [= <- <-]. split; [reflexivity|]. right.
        exists ";", p. repeat split; [now right|].
        cbn [index]. replace (i + 1 + 1 + 1) with (i + 3) by lia.
        now rewrite N.
    + intros [= <- <-]. split; [reflexivity|]. right.
      exists "=", x. repeat split; [now left|].
      cbn [index]. now rewrite N.
Qed.

(** ** The statement loop *)

Lemma loop_sound (fuel : nat) :
  forall node toks i root g',
    i <= length toks ->
    parse_program_loop fuel node (mkGlobals toks i) = Some (Returned root, g') ->
    exists cs,
      root = mkNode (node_name node) (node_children node ++ cs)
      /\ program (skipn i toks) cs
      /\ g' = mkGlobals toks (length toks).
Proof.
  induction fuel as [|fuel IH]; intros node toks i root g' Hi;
    cbn [parse_program_loop tokens_list index];
    (destruct (i <? length toks) eqn:Lt;
     [apply Nat.ltb_lt in Lt | apply Nat.ltb_ge in Lt]).
  - discriminate.
  - intros [= <- <-]. exists []. rewrite app_nil_r, skipn_all2 by assumption.
    destruct node. repeat split; [constructor | f_equal; lia].
  - destruct ((if at_token "int" (mkGlobals toks i) then parse_declaration
               else parse_assignment) (mkGlobals toks i))
      as [[child|e] g1] eqn:Es; [|discriminate].
    apply statement_sound in Es as (ts & Hs & E & ->).
    intros H. apply IH in H as (cs & -> & Hp & ->).
    + exists (child :: cs). destruct node as [name children].
      cbn [add_child node_name node_children]. rewrite <- app_assoc.
      repeat split. rewrite E. now constructor.
    + destruct (skipn_within _ _ _ _ E) as [L|L]; [lia|].
      apply statement_nonempty in Hs. destruct ts; [simpl in Hs; lia|].
      discriminate.
  - intros [= <- <-]. exists []. rewrite app_nil_r, skipn_all2 by assumption.
    destruct node. repeat split; [constructor | f_equal; lia].
Qed.

Lemma loop_complete (r : list string) (cs : list Node) :
  program r cs ->
  forall fuel node toks i,
    skipn i toks = r ->
    length r <= fuel ->
    parse_program_loop fuel node (mkGlobals toks i)
    = Some (Returned (mkNode (node_name node) (node_children node ++ cs)),
            mkGlobals toks (i + length r)).
Proof.
  induction 1 as [|ts rest n ns Hs Hp IH]; intros fuel node toks i E Hf.
  - assert (length toks <= i) as Hi.
    { apply (f_equal (@length string)) in E. rewrite length_skipn in E.
      simpl in E. lia. }
    apply Nat.ltb_ge in Hi.
    destruct fuel; cbn [parse_program_loop tokens_list index]; rewrite Hi;
      destruct node; cbn; rewrite app_nil_r, Nat.add_0_r; reflexivity.
  - pose proof (statement_nonempty _ _ Hs) as H3.
    rewrite length_app in Hf. destruct fuel as [|fuel]; [lia|].
    assert (i < length toks) as Hi.
    { apply (f_equal (@length string)) in E.
      rewrite length_skipn, length_app in E. lia. }
    apply Nat.ltb_lt in Hi.
    cbn [parse_program_loop tokens_list index]. rewrite Hi.
    rewrite (statement_complete toks ts rest i n Hs E).
    rewrite (IH fuel (add_child node n) toks (i + length ts));
      [| now apply (skipn_after toks ts rest i) | lia].
    destruct node as [name children].
    cbn [add_child node_name node_children].
    rewrite <- app_assoc, length_app, Nat.add_assoc. reflexivity.
Qed.

Lemma loop_failure (fuel : nat) :
  forall node toks i e g',
    i <= length toks ->
    parse_program_loop fuel node (mkGlobals toks i) = Some (Raised e, g') ->
    tokens_list g' = toks
    /\ ((e = IndexError /\ index g' = length toks)
        \/ exists expected found,
            (expected = "=" \/ expected = ";")
            /\ e = SyntaxError (expected_found expected found)
            /\ nth_error toks (index g') = Some found).
Proof.
  induction fuel as [|fuel IH]; intros node toks i e g' Hi;
    cbn [parse_program_loop tokens_list index];
    (destruct (i <? length toks) eqn:Lt;
     [apply Nat.ltb_lt in Lt | discriminate]).
  - discriminate.
  - destruct ((if at_token "int" (mkGlobals toks i) then parse_declaration
               else parse_assignment) (mkGlobals toks i))
      as [[child|e1] g1] eqn:Es.
    + apply statement_sound in Es as (ts & Hs & E & ->).
      apply IH.
      destruct (skipn_within _ _ _ _ E) as [L|L]; [lia|].
      apply statement_nonempty in Hs. destruct ts; [simpl in Hs; lia|].
      discriminate.
    + intros [= <- <-]. now apply (statement_failure toks i).
Qed.

Lemma program_frontier (ts : list string) (cs : list Node) :
  program ts cs ->
  flat_map (fun n => map node_name (node_children n)) cs = ts.
Proof.
  induction 1 as [|ts rest n ns Hs _ IH]; [reflexivity|].
  cbn [flat_map]. rewrite IH. now destruct Hs.
Qed.

Lemma program_app (t1 t2 : list string) (c1 c2 : list Node) :
  program t1 c1 -> program t2 c2 -> program (t1 ++ t2) (c1 ++ c2).
Proof.
  induction 1 as [|ts rest n ns Hs _ IH]; intros H2; [exact H2|].
  rewrite <- app_assoc. simpl. constructor; auto.
Qed.

Lemma parse_program_returns (toks : list string) (root : Node) (g' : globals) :
  parse_program (mkGlobals toks 0) = Some (Returned root, g') <->
  exists cs,
    root = mkNode "Program" cs /\ program toks cs
    /\ g' = mkGlobals toks (length toks).
Proof.
  unfold parse_program. cbn [tokens_list index]. split.
  - intros H. apply loop_sound in H as (cs & -> & Hp & ->); [|lia].
    exists cs. auto.
  - intros (cs & -> & Hp & ->).
    rewrite (loop_complete toks cs Hp _ (mkNode "Program" []) toks 0);
      [reflexivity | reflexivity | lia].
Qed.

(** X1: the parser returns a tree exactly when the token list is a
    sequence of statements [int t ;], [l = t ;] or [l = t + u ;], with
    [l] other than [int] and [t], [u] any tokens; the tree is then the
    Program node over the statement nodes, in order. *)
Theorem build_parse_tree_accepts (code : string) (g : globals) (root : Node) :
  (exists g', build_parse_tree code g = Some (Returned root, g'))
  <-> exists cs,
        root = mkNode "Program" cs
        /\ program (Re.findall parser_regex code) cs.
Proof.
  unfold build_parse_tree. split.
  - intros (g' & H). apply parse_program_returns in H as (cs & ? & ? & _).
    eauto.
  - intros (cs & Hr & Hp). eexists. apply parse_program_returns. eauto.
Qed.

(** X2: when the parser returns a tree, the leaves under its statement
    nodes, read left to right, are exactly the tokens of the input, and
    the cursor is left at the end of the token list. *)
Theorem build_parse_tree_frontier (code : string) (g g' : globals)
    (root : Node) :
  build_parse_tree code g = Some (Returned root, g') ->
  frontier root = Re.findall parser_regex code
  /\ g' = mkGlobals (Re.findall parser_regex code)
                    (length (Re.findall parser_regex code)).
Proof.
  unfold build_parse_tree. intros H.
  apply parse_program_returns in H as (cs & -> & Hp & ->).
  split; [|reflexivity]. now apply program_frontier.
Qed.

Lemma build_parse_tree_frontier_witness :
  frontier
    (mkNode "Program"
       [ mkNode "Declaration" [leaf "int"; leaf "b"; leaf ";"];
         mkNode "Assignment"
           [leaf "b"; leaf "="; leaf "a"; leaf "+"; leaf "10"; leaf ";"] ])
  = Re.findall parser_regex "int b; b = a + 10;"
  /\ mkGlobals ["int"; "b"; ";"; "b"; "="; "a"; "+"; "10"; ";"] 9
     = mkGlobals (Re.findall parser_regex "int b; b = a + 10;")
                 (length (Re.findall parser_regex "int b; b = a + 10;")).
Proof.
  apply (build_parse_tree_frontier "int b; b = a + 10;" g0).
  vm_compute. reflexivity.
Defined.

(** X3: when the parser raises, it is either an IndexError with the
    cursor at the end of the token list (the input stops inside a
    statement), or a SyntaxError that expects [=] or [;] and names the
    token under the cursor as found; no other failure occurs. *)
Theorem build_parse_tree_failure (code : string) (g g' : globals) (e : exn) :
  build_parse_tree code g = Some (Raised e, g') ->
  tokens_list g' = Re.findall parser_regex code
  /\ ((e = IndexError /\ index g' = length (tokens_list g'))
      \/ exists expected found,
          (expected = "=" \/ expected = ";")
          /\ e = SyntaxError (expected_found expected found)
          /\ nth_error (tokens_list g') (index g') = Some found).
Proof.
  unfold build_parse_tree, parse_program. cbn [tokens_list index].
  intros H. apply loop_failure in H as [Ht H]; [|lia].
  rewrite Ht. auto.
Qed.

Lemma build_parse_tree_failure_witness :
  tokens_list (mkGlobals ["a"; "="; "b"; "c"; ";"] 3)
  = Re.findall parser_regex "a = b c;"
  /\ ((SyntaxError "Expected ';', found 'c'" = IndexError
       /\ index (mkGlobals ["a"; "="; "b"; "c"; ";"] 3)
          = length (tokens_list (mkGlobals ["a"; "="; "b"; "c"; ";"] 3)))
      \/ exists expected found,
          (expected = "=" \/ expected = ";")
          /\ SyntaxError "Expected ';', found 'c'"
             = SyntaxError (expected_found expected found)
          /\ nth_error (tokens_list (mkGlobals ["a"; "="; "b"; "c"; ";"] 3))
                       (index (mkGlobals ["a"; "="; "b"; "c"; ";"] 3))
             = Some found).
Proof.
  apply (build_parse_tree_failure "a = b c;" g0).
  vm_compute. reflexivity.
Defined.

(** * Further properties of the lexer *)

(** ** Matches are prefixes *)

Lemma length_append (s1 s2 : string) :
  String.length (s1 +:+ s2) = String.length s1 + String.length s2.
Proof. induction s1 as [|a s1 IH]; [reflexivity|]. simpl. now f_equal. Qed.

Lemma prefix_split (w s : string) :
  String.prefix w s = true -> exists rest, s = w +:+ rest.
Proof.
  revert s. induction w as [|x w IH]; intros s H.
  - exists s. reflexivity.
  - destruct s as [|a s]; simpl in H; [discriminate|].
    destruct (ascii_dec x a) as [->|]; [|discriminate].
    apply IH in H as [rest ->]. exists rest. reflexivity.
Qed.

Lemma take_while_split (p : ascii -> bool) (s : string) :
  s = Str.take_while p s +:+ Str.drop_while p s.
Proof.
  induction s as [|a s IH]; [reflexivity|]. simpl.
  destruct (p a); [|reflexivity].
  change (String a s = String a (Str.take_while p s +:+ Str.drop_while p s)).
  now rewrite <- IH.
Qed.

Lemma take_while_all (p : ascii -> bool) (s : string) :
  Str.all p (Str.take_while p s) = true.
Proof.
  induction s as [|a s IH]; [reflexivity|]. simpl.
  destruct (p a) eqn:E; [|reflexivity]. simpl. now rewrite E.
Qed.

(** What each alternative of [token_specification] matches. *)
Lemma token_alt_inv (s kind v : string) :
  Re.alt token_specification s = Some (kind, v) ->
  (exists rest, s = v +:+ rest)
  /\ ((kind = "KEYWORD" /\ v = "int")
      \/ (kind = "NUMBER" /\ v <> "" /\ Str.all is_digit v = true
          /\ Str.startswith "int" s = false)
      \/ (kind = "ID"
          /\ (exists c w, v = String c w /\ is_alpha_ c = true
                          /\ Str.all is_word w = true)
          /\ Str.startswith "int" s = false)
      \/ (kind = "OP" /\ exists c, v = String c "" /\ is_op c = true)
      \/ (kind = "SEMI" /\ v = ";")
      \/ (kind = "SKIP" /\ v <> "" /\ Str.all is_skip v = true)).
Proof.
  unfold token_specification. cbn [Re.alt].
  unfold Re.lit at 1.
  destruct (Str.startswith "int" s) eqn:Ek.
  { intros [= <- <-]. split; [now apply prefix_split | auto]. }
  unfold Re.plus at 1.
  destruct s as [|a s]; [discriminate|].
  destruct (is_digit a) eqn:Ed.
  { intros [= <- <-]. split.
    - exists (Str.drop_while is_digit (String a s)).
      exact (take_while_split is_digit (String a s)).
    - right; left. split; [reflexivity|]. split; [|split; [|reflexivity]].
      + simpl. now rewrite Ed.
      + exact (take_while_all is_digit (String a s)). }
  unfold Re.ident at 1.
  destruct (is_alpha_ a) eqn:Ea.
  { intros [= <- <-]. split.
    - exists (Str.drop_while is_word s).
      change (String a s
              = String a (Str.take_while is_word s +:+ Str.drop_while is_word s)).
      now rewrite <- take_while_split.
    - right; right; left. split; [reflexivity|]. split; [|reflexivity].
      eexists _, _. repeat split; [assumption | apply take_while_all]. }
  unfold Re.one at 1.
  destruct (is_op a) eqn:Eo.
  { intros [= <- <-]. split; [exists s; reflexivity|].
    do 3 right; left. split; [reflexivity|]. eauto. }
  unfold Re.lit at 1.
  destruct (Str.startswith ";" (String a s)) eqn:Es.
  { intros [= <- <-]. split; [now apply prefix_split|].
    do 4 right; left. auto. }
  unfold Re.plus.
  destruct (is_skip a) eqn:Ew; [|discriminate].
  intros [= <- <-]. split.
  - exists (Str.drop_while is_skip (String a s)).
    exact (take_while_split is_skip (String a s)).
  - do 5 right. split; [reflexivity|]. split.
    + simpl. now rewrite Ew.
    + exact (take_while_all is_skip (String a s)).
Qed.

Lemma token_specification_sound : prefix_sound token_specification.
Proof.
  intros s name v H. apply token_alt_inv in H as [Hr H]. split; [|exact Hr].
  destruct H as [[_ ->]|[(_ & H & _)|[(_ & (c & w & -> & _) & _)
    |[(_ & c & -> & _)|[[_ ->]|(_ & H & _)]]]]]; try discriminate; assumption.
Qed.

(** ** The scanner, match by match *)

Section Scanner.

Variable groups : list (string * Re.pattern).

Lemma scan_skip (w rest : string) :
  Re.scan groups (String.length w) (w +:+ rest) = Re.scan groups 0 rest.
Proof. induction w as [|a w IH]; [reflexivity | exact IH]. Qed.

Lemma finditer_match (name v rest : string) :
  v <> "" ->
  Re.alt groups (v +:+ rest) = Some (name, v) ->
  Re.finditer groups (v +:+ rest) = (name, v) :: Re.finditer groups rest.
Proof.
  intros Hv H. unfold Re.finditer.
  destruct v as [|a w]; [contradiction|].
  change (String a w +:+ rest) with (String a (w +:+ rest)) in *.
  cbn [Re.scan]. rewrite H.
  replace (String.length (String a w) - 1) with (String.length w)
    by (simpl; lia).
  rewrite scan_skip. reflexivity.
Qed.

Lemma finditer_miss (c : ascii) (s : string) :
  Re.alt groups (String c s) = None ->
  Re.finditer groups (String c s) = Re.finditer groups s.
Proof. intros H. unfold Re.finditer. cbn [Re.scan]. now rewrite H. Qed.

Lemma scan_in (m : string * string) (s : string) (k : nat) :
  In m (Re.scan groups k s) -> exists s', Re.alt groups s' = Some m.
Proof.
  revert k. induction s as [|a s IH]; intros k; [contradiction|].
  destruct k as [|k]; cbn [Re.scan]; [|apply IH].
  destruct (Re.alt groups (String a s)) as [[name v]|] eqn:E; [|apply IH].
  intros [<-|H]; [eauto | now apply IH in H].
Qed.

Hypothesis sound : prefix_sound groups.

(** Induction along the matches of [finditer]. *)
Lemma finditer_ind (P : string -> list (string * string) -> Prop) :
  P "" [] ->
  (forall c s,
      Re.alt groups (String c s) = None ->
      P s (Re.finditer groups s) -> P (String c s) (Re.finditer groups s)) ->
  (forall name v rest,
      v <> "" ->
      Re.alt groups (v +:+ rest) = Some (name, v) ->
      P rest (Re.finditer groups rest) ->
      P (v +:+ rest) ((name, v) :: Re.finditer groups rest)) ->
  forall s, P s (Re.finditer groups s).
Proof.
  intros H0 Hmiss Hmatch s.
  remember (String.length s) as n eqn:Hn.
  revert s Hn. induction n as [n IH] using lt_wf_ind. intros s Hn.
  destruct s as [|c s]; [exact H0|].
  destruct (Re.alt groups (String c s)) as [[name v]|] eqn:E.
  - destruct (sound _ _ _ E) as [Hv [rest Hs]].
    rewrite Hs in E |- *. rewrite (finditer_match name v rest Hv E).
    apply Hmatch; [assumption | assumption |].
    apply (IH (String.length rest)); [|reflexivity].
    subst n. rewrite Hs, length_append.
    destruct v; [contradiction | simpl; lia].
  - rewrite (finditer_miss c s E). apply Hmiss; [assumption|].
    apply (IH (String.length s)); [subst n; simpl; lia | reflexivity].
Qed.

End Scanner.

(** ** Tokens and matches *)

Lemma tokenize_fold_tokens (ms tokens st : list (string * string)) :
  fst (fold_left tokenize_step ms (tokens, st))
  = tokens ++ List.filter (fun m => negb (String.eqb (fst m) "SKIP")) ms.
Proof.
  revert tokens st. induction ms as [|[kind value] ms IH]; intros tokens st;
    cbn [fold_left List.filter]; [now rewrite app_nil_r|].
  unfold tokenize_step at 2. cbn [fst].
  destruct (negb (String.eqb kind "SKIP")); rewrite IH;
    [now rewrite <- app_assoc | reflexivity].
Qed.

(** The tokens are the matches other than whitespace, in order. *)
Lemma tokenize_tokens (code : string) :
  fst (tokenize code)
  = List.filter (fun m => negb (String.eqb (fst m) "SKIP"))
                (Re.finditer token_specification code).
Proof. unfold tokenize. now rewrite tokenize_fold_tokens. Qed.

Lemma token_in_match (code kind value : string) :
  In (kind, value) (fst (tokenize code)) ->
  kind <> "SKIP"
  /\ exists s, Re.alt token_specification s = Some (kind, value).
Proof.
  rewrite tokenize_tokens, filter_In. cbn [fst]. intros [H Hk].
  split; [|now apply scan_in in H].
  intros ->. discriminate.
Qed.

(** X4: every token has the shape of its kind: the keyword is [int], a
    number is a non-empty run of digits, an identifier is a letter or
    underscore followed by letters, digits and underscores, an operator
    is one of the five operator characters, a semicolon is [;]; no token
    is whitespace. *)
Theorem tokenize_token_shape (code kind value : string) :
  In (kind, value) (fst (tokenize code)) -> token_shape kind value.
Proof.
  intros H. apply token_in_match in H as [Hk [s H]].
  apply token_alt_inv in H as [_ H]. unfold token_shape.
  destruct H as [H|[(? & ? & ? & _)|[(? & ? & _)|[H|[H|(? & _)]]]]]; auto 6.
  contradiction.
Qed.

Lemma tokenize_token_shape_witness : token_shape "NUMBER" "10".
Proof.
  apply (tokenize_token_shape "b = a + 10;").
  vm_compute. do 4 right. left. reflexivity.
Defined.

Lemma prefix_app (w v rest : string) :
  String.prefix w v = true -> String.prefix w (v +:+ rest) = true.
Proof.
  revert v. induction w as [|x w IH]; intros v H.
  - now destruct (v +:+ rest).
  - destruct v as [|a v]; simpl in H; [discriminate|].
    change (String a v +:+ rest) with (String a (v +:+ rest)). simpl.
    destruct (ascii_dec x a); [now apply IH | discriminate].
Qed.

(** X5: no identifier token begins with [int]: where the text begins
    with [int] the keyword alternative has already matched. *)
Theorem tokenize_identifier_not_int (code value : string) :
  In ("ID", value) (fst (tokenize code)) ->
  Str.startswith "int" value = false.
Proof.
  intros H. apply token_in_match in H as [_ [s H]].
  apply token_alt_inv in H as [[rest ->] H].
  destruct H as [[H _]|[[H _]|[(_ & _ & H)|[[H _]|[[H _]|[H _]]]]]];
    try discriminate.
  unfold Str.startswith in *.
  destruct (String.prefix "int" value) eqn:E; [|reflexivity].
  now rewrite (prefix_app _ _ rest E) in H.
Qed.

Lemma tokenize_identifier_not_int_witness :
  Str.startswith "int" "erest" = false.
Proof.
  apply (tokenize_identifier_not_int "interest = 5;").
  vm_compute. right. left. reflexivity.
Defined.

(** ** Nothing but unrecognized characters is lost *)

Lemma all_impl (p q : ascii -> bool) (s : string) :
  (forall c, p c = true -> q c = true) ->
  Str.all p s = true -> Str.all q s = true.
Proof.
  intros Hpq. induction s as [|a s IH]; [reflexivity|]. simpl.
  intros H. apply andb_true_iff in H as [Ha Hs].
  now rewrite (Hpq a Ha), IH.
Qed.

Lemma keep_app (p : ascii -> bool) (s1 s2 : string) :
  keep p (s1 +:+ s2) = keep p s1 +:+ keep p s2.
Proof.
  induction s1 as [|a s1 IH]; [reflexivity|].
  change (String a s1 +:+ s2) with (String a (s1 +:+ s2)). simpl.
  destruct (p a); rewrite IH; reflexivity.
Qed.

Lemma keep_all (p : ascii -> bool) (s : string) :
  Str.all p s = true -> keep p s = s.
Proof.
  induction s as [|a s IH]; [reflexivity|]. simpl.
  intros H. apply andb_true_iff in H as [-> Hs]. now rewrite IH.
Qed.

Lemma recognized_cases (c : ascii) :
  negb (unrecognized c) = true <->
  is_alpha_ c = true \/ is_digit c = true \/ is_op c = true
  \/ c = ";"%char \/ is_skip c = true.
Proof.
  unfold unrecognized. rewrite negb_involutive, !orb_true_iff.
  rewrite Ascii.eqb_eq. tauto.
Qed.

Lemma token_match_recognized (s kind v : string) :
  Re.alt token_specification s = Some (kind, v) ->
  Str.all (fun c => negb (unrecognized c)) v = true.
Proof.
  intros H. apply token_alt_inv in H as [_ H].
  destruct H as [[_ ->]|[(_ & _ & H & _)|[(_ & (c & w & -> & Hc & Hw) & _)
    |[(_ & c & -> & Hc)|[[_ ->]|(_ & _ & H)]]]]].
  - reflexivity.
  - revert H. apply all_impl. intros c Hc. apply recognized_cases. auto.
  - simpl. apply andb_true_iff. split.
    + apply recognized_cases. auto.
    + revert Hw. apply all_impl. intros a Ha. apply recognized_cases.
      unfold is_word in Ha. apply orb_true_iff in Ha. tauto.
  - simpl. rewrite andb_true_r. apply recognized_cases. auto.
  - reflexivity.
  - revert H. apply all_impl. intros c Hc. apply recognized_cases. auto 6.
Qed.

Lemma token_miss_unrecognized (c : ascii) (s : string) :
  Re.alt token_specification (String c s) = None -> unrecognized c = true.
Proof.
  intros H. unfold unrecognized.
  apply negb_true_iff. rewrite !orb_false_iff.
  unfold token_specification in H. cbn [Re.alt] in H.
  destruct (Re.lit "int" (String c s)); [discriminate|].
  unfold Re.plus, Re.ident, Re.one in H.
  destruct (is_digit c) eqn:Hd; [discriminate|].
  destruct (is_alpha_ c) eqn:Ha; [discriminate|].
  destruct (is_op c) eqn:Ho; [discriminate|].
  destruct (is_skip c) eqn:Hk;
    [destruct (Re.lit ";" (String c s)); discriminate|].
  destruct (Ascii.eqb c ";") eqn:Hs; [|tauto].
  apply Ascii.eqb_eq in Hs. subst c.
  unfold Re.lit, Str.startswith in H. simpl in H.
  destruct s; discriminate.
Qed.

(** X6: joining the texts of all the matches the lexer scans, whitespace
    included, gives back the input without its unrecognized characters;
    an input of recognized characters only is given back whole. *)
Theorem finditer_covers_input (code : string) :
  join (map snd (Re.finditer token_specification code))
  = keep (fun c => negb (unrecognized c)) code
  /\ (Str.all (fun c => negb (unrecognized c)) code = true ->
      join (map snd (Re.finditer token_specification code)) = code).
Proof.
  assert (join (map snd (Re.finditer token_specification code))
          = keep (fun c => negb (unrecognized c)) code) as E.
  { apply (finditer_ind token_specification token_specification_sound
             (fun s ms => join (map snd ms)
                          = keep (fun c => negb (unrecognized c)) s)).
    - reflexivity.
    - intros c s Hc IH. apply token_miss_unrecognized in Hc.
      simpl. now rewrite Hc.
    - intros name v rest _ Hv IH. apply token_match_recognized in Hv.
      cbn [map snd join fold_right]. fold (join (map snd
        (Re.finditer token_specification rest))).
      rewrite IH, keep_app, (keep_all _ v Hv). reflexivity. }
  split; [exact E|]. intros H. rewrite E. now apply keep_all.
Qed.

Lemma finditer_covers_input_witness :
  join (map snd (Re.finditer token_specification "b = a + 10;"))
  = "b = a + 10;".
Proof.
  apply (finditer_covers_input "b = a + 10;"). reflexivity.
Defined.

(** ** The symbol table *)

Lemma dict_has_in (k : string) (d : list (string * string)) :
  dict_has k d = true <-> In k (map fst d).
Proof.
  unfold dict_has. rewrite existsb_exists, in_map_iff. split.
  - intros ([k' v] & Hin & E). apply String.eqb_eq in E. simpl in E.
    subst. exists (k, v). auto.
  - intros ([k' v] & E & Hin). simpl in E. subst.
    exists (k, v). split; [assumption | apply String.eqb_refl].
Qed.

Lemma tokenize_step_ok (acc : list (string * string) * list (string * string))
    (m : string * string) :
  table_ok acc -> table_ok (tokenize_step acc m).
Proof.
  destruct acc as [tokens st], m as [kind value].
  intros (Hnd & Hint & Hkeys). unfold tokenize_step, table_ok.
  destruct (String.eqb kind "ID") eqn:Ek.
  - apply String.eqb_eq in Ek. subst kind. cbn [negb String.eqb Ascii.eqb Bool.eqb andb].
    destruct (dict_has value st) eqn:Eh; cbn [negb].
    + apply dict_has_in in Eh. repeat split; try assumption.
      * intros H. apply in_or_app. left. now apply Hkeys.
      * intros H. apply in_app_or in H as [H|[[= <-]|[]]];
          [now apply Hkeys | assumption].
    + assert (~ In value (map fst st)) as Hn.
      { intros H. apply dict_has_in in H. congruence. }
      rewrite map_app. cbn [map fst]. repeat split.
      * apply List.NoDup_app; [assumption | |].
        -- constructor; [intros [] | constructor].
        -- intros x Hx [<-|[]]. contradiction.
      * intros k v H. apply in_app_or in H as [H|[[= _ <-]|[]]];
          [now apply (Hint k) | reflexivity].
      * intros H. apply in_or_app. apply in_app_or in H as [H|[<-|[]]];
          [left; now apply Hkeys | right; now left].
      * intros H. apply in_or_app. apply in_app_or in H as [H|[[= <-]|[]]];
          [left; now apply Hkeys | right; now left].
  - cbn [andb]. apply String.eqb_neq in Ek. repeat split; try assumption.
    + intros H. apply Hkeys in H.
      destruct (negb (String.eqb kind "SKIP")); [|assumption].
      apply in_or_app. now left.
    + intros H. apply Hkeys.
      destruct (negb (String.eqb kind "SKIP")); [|assumption].
      apply in_app_or in H as [H|[[= E _]|[]]]; [assumption|].
      contradiction.
Qed.

Lemma tokenize_fold_ok (ms : list (string * string))
    (acc : list (string * string) * list (string * string)) :
  table_ok acc -> table_ok (fold_left tokenize_step ms acc).
Proof.
  revert acc. induction ms as [|m ms IH]; intros acc H; [exact H|].
  cbn [fold_left]. apply IH. now apply tokenize_step_ok.
Qed.

(** X7: in the symbol table each name occurs once and is given the type
    [int], and the names are exactly the identifier tokens of the
    input. *)
Theorem tokenize_symbol_table (code : string) :
  List.NoDup (map fst (snd (tokenize code)))
  /\ (forall k v, In (k, v) (snd (tokenize code)) -> v = "int")
  /\ (forall k, In k (map fst (snd (tokenize code)))
                <-> In ("ID", k) (fst (tokenize code))).
Proof.
  assert (table_ok (tokenize code)) as H.
  { apply tokenize_fold_ok. split; [constructor|].
    split; [intros k v []|]. intros k. split; intros []. }
  destruct (tokenize code). exact H.
Qed.

(** ** The parser's scan and the lexer's scan *)


Lemma skip_not_token_char (c : ascii) : is_skip c = true -> token_char c = false.
Proof.
  destruct c as [[] [] [] [] [] [] [] []]; vm_compute; congruence.
Qed.


Lemma token_char_classes (c : ascii) :
  token_char c = false ->
  is_alpha_ c = false /\ is_digit c = false /\ is_op c = false
  /\ Ascii.eqb c ";" = false.
Proof. unfold token_char. rewrite !orb_false_iff. tauto. Qed.

Lemma parser_groups_local (c : ascii) :
  token_char c = false ->
  Forall (fun g => local_at c (snd g)) parser_groups.
Proof.
  intros H. apply token_char_classes in H as (Ha & Hd & Ho & Hs).
  unfold parser_groups, parser_regex. cbn [map]. repeat constructor; simpl.
  - now apply lit_local, not_alpha_not_in_int.
  - apply ident_local; [assumption|].
    unfold is_word. now rewrite Ha, Hd.
  - now apply plus_local.
  - now apply one_local.
  - apply lit_local. cbn [Str.contains_char].
    rewrite Ascii.eqb_sym, Hs. reflexivity.
Qed.

Lemma parser_groups_bounded :
  Forall (fun g => bounded (snd g)) parser_groups.
Proof.
  unfold parser_groups, parser_regex. cbn [map]. repeat constructor; simpl;
    auto using lit_bounded, plus_bounded, one_bounded, ident_bounded.
Qed.

Lemma parser_alt_dead (c : ascii) (post : string) :
  token_char c = false -> Re.alt parser_groups (String c post) = None.
Proof.
  intros H. exact (alt_local c _ (parser_groups_local c H) "" post).
Qed.

(** The parser's scan passes over a character that is part of no token,
    blank or not, and cuts the text there. *)
Lemma findall_parser_cut (c : ascii) (pre post : string) :
  token_char c = false ->
  Re.findall parser_regex (pre +:+ String c post)
  = Re.findall parser_regex pre ++ Re.findall parser_regex post.
Proof.
  intros H. unfold Re.findall. fold parser_groups.
  rewrite <- map_app. f_equal. apply finditer_passes.
  - intros post'. now apply parser_alt_dead.
  - intros a pre' post'. apply (alt_local c _ (parser_groups_local c H)).
  - apply alt_bounded, parser_groups_bounded.
Qed.



(** * Further properties of the line-oriented checkers *)

(** ** Stripping *)

Lemma all_app (p : ascii -> bool) (s1 s2 : string) :
  Str.all p (s1 +:+ s2) = Str.all p s1 && Str.all p s2.
Proof.
  induction s1 as [|a s1 IH]; [reflexivity|].
  change (String a s1 +:+ s2) with (String a (s1 +:+ s2)). simpl.
  now rewrite IH, andb_assoc.
Qed.

Lemma rstrip_blank (s : string) : Str.all is_space s = true -> Str.rstrip s = "".
Proof. destruct s as [|a s]; [reflexivity|]. simpl. now intros ->. Qed.

Lemma rstrip_app_blank (s w : string) :
  Str.all is_space w = true -> Str.rstrip (s +:+ w) = Str.rstrip s.
Proof.
  intros Hw. induction s as [|a s IH].
  - now apply rstrip_blank.
  - change (String a s +:+ w) with (String a (s +:+ w)).
    cbn [Str.rstrip].
    change (Str.all is_space (String a (s +:+ w)))
      with (Str.all is_space (String a s +:+ w)).
    rewrite all_app, Hw, andb_true_r.
    destruct (Str.all is_space (String a s)); [reflexivity | now rewrite IH].
Qed.

Lemma lstrip_blank_app (w s : string) :
  Str.all is_space w = true -> Str.lstrip (w +:+ s) = Str.lstrip s.
Proof.
  unfold Str.lstrip. induction w as [|a w IH]; [reflexivity|]. simpl.
  intros H. apply andb_true_iff in H as [-> Hw]. now apply IH.
Qed.

Lemma lstrip_app_blank (s w : string) :
  Str.all is_space w = true ->
  Str.rstrip (Str.lstrip (s +:+ w)) = Str.rstrip (Str.lstrip s).
Proof.
  intros Hw. unfold Str.lstrip. induction s as [|a s IH].
  - change ("" +:+ w) with w.
    assert (Str.drop_while is_space w = "") as ->; [|reflexivity].
    induction w as [|b w IHw]; [reflexivity|]. simpl in *.
    apply andb_true_iff in Hw as [-> Hw]. now apply IHw.
  - change (String a s +:+ w) with (String a (s +:+ w)). simpl.
    destruct (is_space a); [exact IH|].
    change (String a (s +:+ w)) with (String a s +:+ w).
    now apply rstrip_app_blank.
Qed.

(** Blank text around the input is not seen by [strip]. *)
Lemma strip_surround (w1 s w2 : string) :
  Str.all is_space w1 = true -> Str.all is_space w2 = true ->
  Str.strip (w1 +:+ s +:+ w2) = Str.strip s.
Proof.
  intros H1 H2. unfold Str.strip.
  rewrite (lstrip_blank_app w1 _ H1). now apply lstrip_app_blank.
Qed.

Lemma rstrip_all_false (s : string) :
  Str.all is_space s = false -> Str.all is_space (Str.rstrip s) = false.
Proof.
  induction s as [|a s IH]; [discriminate|]. intros H.
  cbn [Str.rstrip]. rewrite H. simpl in *.
  destruct (is_space a); [|reflexivity]. simpl in *. now apply IH.
Qed.

Lemma rstrip_idem (s : string) : Str.rstrip (Str.rstrip s) = Str.rstrip s.
Proof.
  induction s as [|a s IH]; [reflexivity|].
  cbn [Str.rstrip].
  destruct (Str.all is_space (String a s)) eqn:E; [reflexivity|].
  cbn [Str.rstrip].
  assert (Str.all is_space (String a (Str.rstrip s)) = false) as ->.
  { simpl in *. destruct (is_space a); [|reflexivity]. simpl in *.
    now apply rstrip_all_false. }
  now rewrite IH.
Qed.

Lemma lstrip_rstrip_lstrip (s : string) :
  Str.lstrip (Str.rstrip (Str.lstrip s)) = Str.rstrip (Str.lstrip s).
Proof.
  unfold Str.lstrip. induction s as [|a s IH]; [reflexivity|]. simpl.
  destruct (is_space a) eqn:Ea; [exact IH|].
  cbn [Str.rstrip]. simpl. rewrite Ea. simpl. now rewrite Ea.
Qed.

Lemma strip_idem (s : string) : Str.strip (Str.strip s) = Str.strip s.
Proof.
  unfold Str.strip. now rewrite lstrip_rstrip_lstrip, rstrip_idem.
Qed.

(** ** The grammar checker *)

Lemma syntax_analysis_map (code : string) :
  syntax_analysis code
  = map (fun line => (Str.strip line, verdict (Str.strip line)))
        (Str.split_char "010" (Str.strip code)).
Proof.
  unfold syntax_analysis.
  now rewrite (fold_left_append
                 (fun line => (Str.strip line, verdict (Str.strip line)))).
Qed.

Lemma split_char_length (sep : ascii) (s : string) :
  length (Str.split_char sep s) = S (count_char sep s).
Proof.
  induction s as [|a s IH]; [reflexivity|]. simpl.
  destruct (Ascii.eqb a sep); simpl; [now rewrite IH|].
  destruct (Str.split_char sep s); simpl in *; [discriminate | exact IH].
Qed.

Lemma split_char_no_sep (sep : ascii) (s x : string) :
  In x (Str.split_char sep s) -> Str.contains_char sep x = false.
Proof.
  revert x. induction s as [|a s IH]; intros x; simpl.
  - intros [<-|[]]. reflexivity.
  - destruct (Ascii.eqb a sep) eqn:E.
    + intros [<-|H]; [reflexivity | now apply IH].
    + destruct (Str.split_char sep s) as [|h t].
      * intros [<-|[]]. simpl. now rewrite E.
      * intros [<-|H]; [|apply IH; now right].
        simpl. rewrite E. apply IH. now left.
Qed.

Lemma drop_while_contains (p : ascii -> bool) (c : ascii) (s : string) :
  Str.contains_char c s = false ->
  Str.contains_char c (Str.drop_while p s) = false.
Proof.
  induction s as [|a s IH]; [reflexivity|]. intros H. simpl.
  destruct (p a); [|exact H].
  simpl in H. apply orb_false_iff in H as [_ H]. now apply IH.
Qed.

Lemma rstrip_contains (c : ascii) (s : string) :
  Str.contains_char c s = false ->
  Str.contains_char c (Str.rstrip s) = false.
Proof.
  induction s as [|a s IH]; [reflexivity|]. intros H.
  cbn [Str.rstrip]. destruct (Str.all is_space (String a s)); [reflexivity|].
  simpl in *. apply orb_false_iff in H as [-> H]. now apply IH.
Qed.

Lemma strip_contains (c : ascii) (s : string) :
  Str.contains_char c s = false ->
  Str.contains_char c (Str.strip s) = false.
Proof.
  intros H. unfold Str.strip, Str.lstrip.
  now apply rstrip_contains, drop_while_contains.
Qed.

(** X9: the grammar checker returns one verdict for each line of the
    trimmed input, one more than there are line feeds in it; so its
    result is never empty, whatever the input. *)
Theorem syntax_analysis_length (code : string) :
  length (syntax_analysis code) = S (count_char "010" (Str.strip code))
  /\ syntax_analysis code <> [].
Proof.
  assert (length (syntax_analysis code)
          = S (count_char "010" (Str.strip code))) as E
    by (rewrite syntax_analysis_map, length_map; apply split_char_length).
  split; [exact E|]. intros H. rewrite H in E. discriminate.
Qed.

(** X10: every line the grammar checker reports is trimmed and holds no
    line feed, and its verdict is one of the three verdict texts. *)
Theorem syntax_analysis_lines (code line v : string) :
  In (line, v) (syntax_analysis code) ->
  Str.strip line = line
  /\ Str.contains_char "010" line = false
  /\ (v = "Valid Declaration" \/ v = "Valid Assignment" \/ v = "Syntax Error").
Proof.
  rewrite syntax_analysis_map, in_map_iff. intros (raw & [= <- <-] & Hin).
  split; [apply strip_idem|]. split.
  - apply strip_contains. now apply split_char_no_sep in Hin.
  - unfold verdict.
    destruct (Str.startswith "int" (Str.strip raw)
              && Str.endswith_char ";" (Str.strip raw)); [now left|].
    destruct (Str.contains_char "=" (Str.strip raw)
              && Str.endswith_char ";" (Str.strip raw)); auto.
Qed.

Lemma syntax_analysis_lines_witness :
  Str.strip "a = 5;" = "a = 5;"
  /\ Str.contains_char "010" "a = 5;" = false
  /\ ("Valid Assignment" = "Valid Declaration"
      \/ "Valid Assignment" = "Valid Assignment"
      \/ "Valid Assignment" = "Syntax Error").
Proof.
  apply (syntax_analysis_lines ("  int a;" +:+ LF +:+ "  a = 5;  " +:+ LF)).
  vm_compute. right. left. reflexivity.
Defined.

(** X11: blank text before and after the input changes neither the
    verdicts of the grammar checker nor the outcome of the semantic
    checker. *)
Theorem surrounding_blanks_ignored (w1 code w2 : string) :
  Str.all is_space w1 = true -> Str.all is_space w2 = true ->
  syntax_analysis (w1 +:+ code +:+ w2) = syntax_analysis code
  /\ semantic_analysis (w1 +:+ code +:+ w2) = semantic_analysis code.
Proof.
  intros H1 H2. unfold syntax_analysis, semantic_analysis.
  now rewrite (strip_surround w1 code w2 H1 H2).
Qed.

Lemma surrounding_blanks_ignored_witness :
  syntax_analysis (LF +:+ "int a;" +:+ (LF +:+ " "))
  = syntax_analysis "int a;"
  /\ semantic_analysis (LF +:+ "int a;" +:+ (LF +:+ " "))
     = semantic_analysis "int a;".
Proof.
  apply (surrounding_blanks_ignored LF "int a;" (LF +:+ " ")); reflexivity.
Defined.

(** ** The semantic checker *)

Lemma split_first_two (c : ascii) (s : string) :
  Str.contains_char c s = true -> exists a b, Str.split_first c s = [a; b].
Proof.
  induction s as [|x s IH]; [discriminate|]. simpl.
  destruct (Ascii.eqb x c); [eauto|]. simpl.
  intros H. destruct (IH H) as (a & b & ->). eauto.
Qed.

Lemma semantic_loop_outcome (lines : list string) :
  forall declared errors,
    match semantic_loop lines declared errors with
    | Raised e => e = IndexError /\ existsb bare_declaration lines = true
    | Returned _ => existsb bare_declaration lines = false
    end.
Proof.
  induction lines as [|line lines IH]; intros declared errors;
    [reflexivity|].
  cbn [semantic_loop existsb].
  assert (bare_declaration line
          = Str.startswith "int" (Str.strip line)
            && match nth_error (Str.split_ws (Str.strip line)) 1 with
               | None => true
               | Some _ => false
               end) as -> by reflexivity.
  destruct (Str.startswith "int" (Str.strip line)).
  - destruct (nth_error (Str.split_ws (Str.strip line)) 1); [|auto].
    cbn [andb orb].
    destruct (decide (Str.remove_char ";" s ∈ declared)); apply IH.
  - cbn [andb orb].
    destruct (Str.contains_char "=" (Str.strip line)) eqn:E; [|apply IH].
    destruct (split_first_two _ _ E) as (a & b & ->). apply IH.
Qed.

(** X12: the semantic checker either returns its list of errors or
    fails with an IndexError, nothing else; it fails exactly when some
    line of the trimmed input starts with [int] and has no second
    word. *)
Theorem semantic_analysis_raises (code : string) :
  (semantic_analysis code = Raised IndexError
   /\ existsb bare_declaration (Str.split_char "010" (Str.strip code)) = true)
  \/ (exists errors,
         semantic_analysis code = Returned errors
         /\ existsb bare_declaration (Str.split_char "010" (Str.strip code))
            = false).
Proof.
  unfold semantic_analysis.
  pose proof (semantic_loop_outcome
                (Str.split_char "010" (Str.strip code)) ∅ []) as H.
  destruct (semantic_loop (Str.split_char "010" (Str.strip code)) ∅ [])
    as [errors|e0].
  - right. eauto.
  - left. destruct H as [-> H]. auto.
Qed.

Lemma check_rhs_spec (declared : gset string) (errors : list string)
    (rhs : string) :
  check_rhs declared errors rhs
  = errors
    ++ map undeclared_variable
         (List.filter (fun token => negb (bool_decide (token ∈ declared)))
                      (Re.findall [Re.ident] rhs)).
Proof.
  unfold check_rhs. generalize (Re.findall [Re.ident] rhs) as tokens.
  intros tokens. revert errors.
  induction tokens as [|t tokens IH]; intros errors; cbn [fold_left List.filter];
    [now rewrite app_nil_r|].
  rewrite IH. destruct (decide (t ∈ declared)) as [Hd|Hd].
  - now rewrite (bool_decide_eq_true_2 _ Hd).
  - rewrite (bool_decide_eq_false_2 _ Hd). cbn [negb map].
    now rewrite <- app_assoc.
Qed.

Lemma scan_ident_no_letters (s : string) (k : nat) :
  Str.all (fun c => negb (is_alpha_ c)) s = true ->
  Re.scan [("", Re.ident)] k s = [].
Proof.
  revert k. induction s as [|a s IH]; intros k H; [reflexivity|].
  simpl in H. apply andb_true_iff in H as [Ha Hs].
  apply negb_true_iff in Ha.
  destruct k as [|k]; cbn [Re.scan Re.alt Re.ident]; [rewrite Ha|]; now apply IH.
Qed.

(** X13: the scan of a right-hand side keeps the errors found so far and
    adds, in order of appearance, one Undeclared-variable error for each
    occurrence of an identifier that is not declared, repeated names
    included; a right-hand side without a letter or underscore adds
    none. *)
Theorem check_rhs_reports (declared : gset string) (errors : list string)
    (rhs : string) :
  check_rhs declared errors rhs
  = errors
    ++ map undeclared_variable
         (List.filter (fun token => negb (bool_decide (token ∈ declared)))
                      (Re.findall [Re.ident] rhs))
  /\ (Str.all (fun c => negb (is_alpha_ c)) rhs = true ->
      check_rhs declared errors rhs = errors).
Proof.
  split; [apply check_rhs_spec|]. intros H. rewrite check_rhs_spec.
  unfold Re.findall, Re.finditer. cbn [map].
  rewrite (scan_ident_no_letters rhs 0 H). cbn. apply app_nil_r.
Qed.

Lemma check_rhs_reports_witness :
  check_rhs {["a"]} ["earlier"] "10 + 2 * 3" = ["earlier"].
Proof.
  apply (check_rhs_reports {["a"]} ["earlier"] "10 + 2 * 3"). reflexivity.
Defined.

(** * Programs side by side *)

(** X14: two inputs that parse, put one after the other with a
    character between them that belongs to no token (a blank, a line
    feed, any unrecognized character), parse to the statements of the
    first followed by those of the second. *)
Theorem build_parse_tree_compose (c1 c2 : string) (sep : ascii)
    (g g1 g2 : globals) (cs1 cs2 : list Node) :
  token_char sep = false ->
  build_parse_tree c1 g = Some (Returned (mkNode "Program" cs1), g1) ->
  build_parse_tree c2 g = Some (Returned (mkNode "Program" cs2), g2) ->
  exists g',
    build_parse_tree (c1 +:+ String sep c2) g
    = Some (Returned (mkNode "Program" (cs1 ++ cs2)), g').
Proof.
  intros Hsep H1 H2.
  apply build_parse_tree_accepts.
  assert (exists cs, mkNode "Program" cs1 = mkNode "Program" cs
                     /\ program (Re.findall parser_regex c1) cs)
    as (x1 & [= <-] & P1) by (apply (build_parse_tree_accepts c1 g); eauto).
  assert (exists cs, mkNode "Program" cs2 = mkNode "Program" cs
                     /\ program (Re.findall parser_regex c2) cs)
    as (x2 & [= <-] & P2) by (apply (build_parse_tree_accepts c2 g); eauto).
  exists (cs1 ++ cs2). split; [reflexivity|].
  rewrite (findall_parser_cut sep c1 c2 Hsep). now apply program_app.
Qed.

Lemma build_parse_tree_compose_witness :
  exists g',
    build_parse_tree ("int a;" +:+ String "010" "a = 5;") g0
    = Some (Returned
              (mkNode "Program"
                 ([mkNode "Declaration" [leaf "int"; leaf "a"; leaf ";"]]
                  ++ [mkNode "Assignment"
                        [leaf "a"; leaf "="; leaf "5"; leaf ";"]])), g').
Proof.
  apply (build_parse_tree_compose "int a;" "a = 5;" "010" g0
           (mkGlobals ["int"; "a"; ";"] 3)
           (mkGlobals ["a"; "="; "5"; ";"] 4));
    vm_compute; reflexivity.
Defined.

(** * Blanks between tokens *)

Lemma append_assoc (s1 s2 s3 : string) :
  (s1 +:+ s2) +:+ s3 = s1 +:+ (s2 +:+ s3).
Proof.
  induction s1 as [|a s1 IH]; [reflexivity|].
  change (String a ((s1 +:+ s2) +:+ s3) = String a (s1 +:+ (s2 +:+ s3))).
  now rewrite IH.
Qed.

Lemma drop_while_all_app (p : ascii -> bool) (v s : string) :
  Str.all p v = true -> Str.drop_while p (v +:+ s) = Str.drop_while p s.
Proof.
  induction v as [|a v IH]; [reflexivity|]. simpl.
  intros H. apply andb_true_iff in H as [Ha Hv].
  change (String a v +:+ s) with (String a (v +:+ s)). simpl.
  rewrite Ha. now apply IH.
Qed.

Lemma skip_classes (c : ascii) :
  is_skip c = true ->
  is_alpha_ c = false /\ is_digit c = false /\ is_op c = false
  /\ Ascii.eqb c ";" = false.
Proof. intros H. now apply token_char_classes, skip_not_token_char. Qed.

(** At a blank the lexer matches the whole run of blanks. *)
Lemma token_alt_blank (c : ascii) (s : string) :
  is_skip c = true ->
  Re.alt token_specification (String c s)
  = Some ("SKIP", Str.take_while is_skip (String c s)).
Proof.
  intros H. destruct (skip_classes c H) as (Ha & Hd & Ho & Hs).
  unfold token_specification. cbn [Re.alt].
  assert (Re.lit "int" (String c s) = None) as ->
    by exact (lit_local c "int" (not_alpha_not_in_int c Ha) "" s).
  assert (Str.contains_char c ";" = false) as Hsemi
    by (cbn [Str.contains_char]; now rewrite Ascii.eqb_sym, Hs).
  assert (Re.lit ";" (String c s) = None) as E
    by exact (lit_local c ";" Hsemi "" s).
  unfold Re.plus at 1, Re.ident, Re.one. rewrite Hd, Ha, Ho, E.
  unfold Re.plus. now rewrite H.
Qed.

(** Blanks in front of the text give no token. *)
Lemma tokens_drop_blanks (s : string) :
  List.filter not_blank (Re.finditer token_specification s)
  = List.filter not_blank
      (Re.finditer token_specification (Str.drop_while is_skip s)).
Proof.
  destruct s as [|c s]; [reflexivity|].
  destruct (is_skip c) eqn:Hc; [|simpl; now rewrite Hc].
  pose proof (token_alt_blank c s Hc) as E.
  pose proof (take_while_split is_skip (String c s)) as Hsplit.
  remember (Str.take_while is_skip (String c s)) as v eqn:Hv.
  remember (Str.drop_while is_skip (String c s)) as r eqn:Hr.
  rewrite Hsplit in E |- *.
  rewrite (finditer_match _ _ _ _ (proj1 (token_specification_sound _ _ _ E)) E).
  reflexivity.
Qed.

Lemma token_alt_before_blank (c : ascii) (a : ascii) (pre post : string)
    (name v : string) :
  is_skip c = true ->
  name <> "SKIP" ->
  Re.alt token_specification (String a pre) = Some (name, v) ->
  Re.alt token_specification (String a pre +:+ String c post)
  = Some (name, v).
Proof.
  intros Hc Hn. destruct (skip_classes c Hc) as (Ha & Hd & Ho & Hs).
  unfold token_specification. cbn [Re.alt].
  rewrite (lit_local c "int" (not_alpha_not_in_int c Ha) (String a pre) post).
  destruct (Re.lit "int" (String a pre)); [trivial|].
  rewrite (plus_local c is_digit Hd (String a pre) post).
  destruct (Re.plus is_digit (String a pre)); [trivial|].
  rewrite (ident_local c Ha) by (unfold is_word; now rewrite Ha, Hd).
  destruct (Re.ident (String a pre)); [trivial|].
  rewrite (one_local c is_op Ho (String a pre) post).
  destruct (Re.one is_op (String a pre)); [trivial|].
  assert (Str.contains_char c ";" = false) as Hsemi
    by (cbn [Str.contains_char]; now rewrite Ascii.eqb_sym, Hs).
  rewrite (lit_local c ";" Hsemi (String a pre) post).
  destruct (Re.lit ";" (String a pre)); [trivial|].
  destruct (Re.plus is_skip (String a pre)); [|discriminate].
  intros [= <- _]. contradiction.
Qed.

Lemma blank_separates_matches (c : ascii) (pre : string) :
  is_skip c = true ->
  forall post,
    List.filter not_blank
      (Re.finditer token_specification (pre +:+ String c post))
    = List.filter not_blank (Re.finditer token_specification pre)
      ++ List.filter not_blank (Re.finditer token_specification post).
Proof.
  intros Hc.
  apply (finditer_ind token_specification token_specification_sound
           (fun s ms =>
              forall post,
                List.filter not_blank
                  (Re.finditer token_specification (s +:+ String c post))
                = List.filter not_blank ms
                  ++ List.filter not_blank
                       (Re.finditer token_specification post))).
  - intros post. change ("" +:+ String c post) with (String c post).
    rewrite tokens_drop_blanks. cbn [Str.drop_while]. rewrite Hc.
    now rewrite <- tokens_drop_blanks.
  - intros a s Ha IH post.
    change (String a s +:+ String c post) with (String a (s +:+ String c post)).
    rewrite finditer_miss; [apply IH|].
    apply unrecognized_iff. now apply token_miss_unrecognized in Ha.
  - intros name v rest Hv Hm IH post. rewrite append_assoc.
    destruct (String.eqb name "SKIP") eqn:En.
    + apply String.eqb_eq in En. subst name.
      assert (Str.all is_skip v = true) as Hw.
      { apply token_alt_inv in Hm as [_ Hm].
        destruct Hm as [[H _]|[[H _]|[[H _]|[[H _]|[[H _]|(_ & _ & Hw)]]]]];
          try discriminate. exact Hw. }
      rewrite tokens_drop_blanks, (drop_while_all_app _ _ _ Hw),
        <- tokens_drop_blanks.
      apply IH.
    + assert (name <> "SKIP") as Hn by (now apply String.eqb_neq).
      assert (Re.alt token_specification (v +:+ (rest +:+ String c post))
              = Some (name, v)) as Hm'.
      { rewrite <- append_assoc.
        destruct v as [|a w]; [contradiction|].
        change (String a w +:+ rest) with (String a (w +:+ rest)) in *.
        now apply token_alt_before_blank. }
      rewrite (finditer_match _ _ _ _ Hv Hm').
      cbn [List.filter].
      assert (not_blank (name, v) = true) as ->
        by (unfold not_blank; cbn [fst]; now rewrite En).
      cbn [app]. now rewrite IH.
Qed.

Lemma tokenize_step_blank (acc : list (string * string) * list (string * string))
    (m : string * string) :
  not_blank m = false -> tokenize_step acc m = acc.
Proof.
  destruct acc as [tokens st], m as [kind value]. unfold not_blank. cbn [fst].
  intros H. apply negb_false_iff in H. unfold tokenize_step. rewrite H.
  apply String.eqb_eq in H. subst kind. reflexivity.
Qed.

Lemma tokenize_fold_not_blank (ms : list (string * string))
    (acc : list (string * string) * list (string * string)) :
  fold_left tokenize_step ms acc
  = fold_left tokenize_step (List.filter not_blank ms) acc.
Proof.
  revert acc. induction ms as [|m ms IH]; intros acc; [reflexivity|].
  cbn [fold_left List.filter]. destruct (not_blank m) eqn:E.
  - cbn [fold_left]. apply IH.
  - rewrite (tokenize_step_blank acc m E). apply IH.
Qed.

(** X15: a blank (space, tab or line feed) between two texts separates
    their tokens and gives none itself: the tokens of the whole are the
    tokens of the first text followed by those of the second, and the
    symbol table is the one of the first text carried on over the tokens
    of the second. *)
Theorem tokenize_blank_separates (pre post : string) (c : ascii) :
  is_skip c = true ->
  fst (tokenize (pre +:+ String c post))
  = fst (tokenize pre) ++ fst (tokenize post)
  /\ tokenize (pre +:+ String c post)
     = fold_left tokenize_step (fst (tokenize post)) (tokenize pre).
Proof.
  intros Hc. split.
  - rewrite !tokenize_tokens. now apply blank_separates_matches.
  - rewrite (tokenize_tokens post). unfold tokenize.
    rewrite tokenize_fold_not_blank, (blank_separates_matches c pre Hc post).
    rewrite fold_left_app, <- (tokenize_fold_not_blank _ ([], [])).
    reflexivity.
Qed.

Lemma tokenize_blank_separates_witness :
  fst (tokenize ("int a;" +:+ String "010" "a = 5;"))
  = fst (tokenize "int a;") ++ fst (tokenize "a = 5;")
  /\ tokenize ("int a;" +:+ String "010" "a = 5;")
     = fold_left tokenize_step (fst (tokenize "a = 5;")) (tokenize "int a;").
Proof.
  apply (tokenize_blank_separates "int a;" "a = 5;" "010"). reflexivity.
Defined.

(** * Lines one after the other *)

Lemma semantic_loop_errors_app (lines : list string) :
  forall declared e0 errors,
    semantic_loop lines declared (e0 ++ errors)
    = match semantic_loop lines declared errors with
      | Returned r => Returned (e0 ++ r)
      | Raised x => Raised x
      end.
Proof.
  induction lines as [|line lines IH]; intros declared e0 errors;
    [reflexivity|].
  cbn [semantic_loop].
  destruct (Str.startswith "int" (Str.strip line)).
  - destruct (nth_error (Str.split_ws (Str.strip line)) 1); [|reflexivity].
    destruct (decide (Str.remove_char ";" s ∈ declared)); [|apply IH].
    rewrite <- app_assoc. apply IH.
  - destruct (Str.contains_char "=" (Str.strip line)); [|apply IH].
    destruct (Str.split_first "=" (Str.strip line)) as [|lhs [|rhs [|? ?]]];
      try reflexivity.
    rewrite !check_rhs_spec.
    destruct (decide (Str.strip lhs ∈ declared));
      rewrite <- ?app_assoc; apply IH.
Qed.

Lemma semantic_loop_app (l1 l2 : list string) :
  forall declared errors,
    match semantic_loop l1 declared errors with
    | Raised x => semantic_loop (l1 ++ l2) declared errors = Raised x
    | Returned r1 =>
        exists declared',
          semantic_loop (l1 ++ l2) declared errors
          = semantic_loop l2 declared' r1
    end.
Proof.
  induction l1 as [|line l1 IH]; intros declared errors; [simpl; eauto|].
  cbn [semantic_loop app].
  destruct (Str.startswith "int" (Str.strip line)).
  - destruct (nth_error (Str.split_ws (Str.strip line)) 1); [|reflexivity].
    destruct (decide (Str.remove_char ";" s ∈ declared)); apply IH.
  - destruct (Str.contains_char "=" (Str.strip line)); [|apply IH].
    destruct (Str.split_first "=" (Str.strip line)) as [|lhs [|rhs [|? ?]]];
      try reflexivity.
    apply IH.
Qed.

(** X16: the errors reported for the first lines stay, in order, at the
    head of the result when more lines follow; and once a line makes
    the checker fail, the lines after it do not matter. *)
Theorem semantic_loop_prefix (l1 l2 : list string) (declared : gset string)
    (errors : list string) :
  match semantic_loop l1 declared errors with
  | Raised x => semantic_loop (l1 ++ l2) declared errors = Raised x
  | Returned r1 =>
      semantic_loop (l1 ++ l2) declared errors = Raised IndexError
      \/ exists more,
          semantic_loop (l1 ++ l2) declared errors = Returned (r1 ++ more)
  end.
Proof.
  pose proof (semantic_loop_app l1 l2 declared errors) as H.
  destruct (semantic_loop l1 declared errors) as [r1|x]; [|exact H].
  destruct H as [declared' ->].
  pose proof (semantic_loop_errors_app l2 declared' r1 []) as E.
  rewrite app_nil_r in E. rewrite E.
  pose proof (semantic_loop_outcome l2 declared' []) as O.
  destruct (semantic_loop l2 declared' []) as [r|x]; [right; eauto|].
  left. now destruct O as [-> _].
Qed.

(** * Drawing the tree *)






Lemma filter_node_app (d1 d2 : list dot_call) :
  List.filter is_dot_node (d1 ++ d2)
  = List.filter is_dot_node d1 ++ List.filter is_dot_node d2.
Proof. apply List.filter_app. Qed.









(** * The Compile button *)

(** X19: a click on Compile always shows the tokens, the symbol table
    and the verdicts of the grammar checker. If some line starts with
    [int] and has no second word, the IndexError of the semantic checker
    then escapes: nothing more is shown and the parser is not run.
    Otherwise no exception escapes: the semantic section follows, and
    last comes either the parse tree or the parser's error, which is
    caught. *)
Theorem compile_clicked_outcome (code : string) (g : globals) :
  let sections :=
    [ st_subheader "Tokens"; st_table (fst (tokenize code));
      st_subheader "Symbol Table"; st_table (snd (tokenize code));
      st_subheader "Syntax Analysis"; st_table (syntax_analysis code) ] in
  (existsb bare_declaration (Str.split_char "010" (Str.strip code)) = true
   /\ compile_clicked code g = Some (sections, Some IndexError, g))
  \/ (existsb bare_declaration (Str.split_char "010" (Str.strip code)) = false
      /\ exists semantic last g',
          compile_clicked code g
          = Some (sections ++ st_subheader "Semantic Analysis" :: semantic
                           ++ last, None, g')
          /\ semantic <> []
          /\ ((exists root,
                  build_parse_tree code g = Some (Returned root, g')
                  /\ last = [st_subheader "Parse Tree";
                             st_graphviz_chart (draw_tree root)])
              \/ (exists e,
                     build_parse_tree code g = Some (Raised e, g')
                     /\ last = [st_parse_error e]))).
Proof.
  intros sections. subst sections. unfold compile_clicked.
  destruct (tokenize code) as [tokens symbol_table]. cbn [fst snd app].
  destruct (semantic_analysis_raises code) as [[-> Hb]|(errors & -> & Hb)].
  - left. auto.
  - right. split; [exact Hb|].
    destruct (build_parse_tree_total code g) as [[[root|e] g'] Hp]; rewrite Hp.
    + exists (match errors with
              | [] => [st_success "No semantic errors found!"]
              | _ :: _ => map st_error errors
              end),
        [st_subheader "Parse Tree"; st_graphviz_chart (draw_tree root)], g'.
      split; [cbn [app]; repeat f_equal; now rewrite <- app_assoc|].
      split; [now destruct errors | left; eauto].
    + exists (match errors with
              | [] => [st_success "No semantic errors found!"]
              | _ :: _ => map st_error errors
              end), [st_parse_error e], g'.
      split; [cbn [app]; repeat f_equal; now rewrite <- app_assoc|].
      split; [now destruct errors | right; eauto].
Qed.
